(** * Manual generator: image resolution, auto-linking and pagination

    A shallow embedding of the pagination and image-resolution engine of
    the manual generator (one React component, kept in three evolutionary
    snapshots):

    - [src/app/page.tsx]      : asset index, reference resolver, renderer
                                adapter, heading-split paginator;
    - [src/unnamed/part_000]  : the same resolver and paginator, with the
                                renderer adapter guarding its props as in
                                the last snapshot;
    - [src/unnamed/part_001]  : the resolver inlined in the adapter, plus
                                the Auto-Linker ([processedMarkdown]) and
                                the height-aware paginator ([generatePDF]).

    JavaScript strings are sequences of UTF-16 code units; they are
    modelled as [list N], one number per code unit, so that the character
    classes of the regular expressions ([\d], [\s], [.]) and of
    [String.prototype.trim] are the ECMAScript ones. *)

From Stdlib Require Import Ascii String.
From Stdlib Require DecimalFacts DecimalPos DecimalN.
From stdpp Require Import base numbers option list gmap.

Open Scope N_scope.

(** ** Strings *)

Abbreviation jsstring := (list N).

(** An ASCII literal as a sequence of code units. *)
Definition js (s : string) : jsstring :=
  (fun a => N_of_ascii a) <$> list_ascii_of_string s.

Definition ch (a : ascii) : N := N_of_ascii a.

Definition inRange (lo hi c : N) : bool := (lo <=? c) && (c <=? hi).

(** [\d] *)
Definition isDigit (c : N) : bool := inRange 48 57 c.

(** LineTerminator: LF, CR, LS, PS. The regular expression [.] (without
    the [s] flag) matches every code unit but these. *)
Definition isLineTerminator (c : N) : bool :=
  (c =? 10) || (c =? 13) || (c =? 0x2028) || (c =? 0x2029).

(** WhiteSpace and LineTerminator: what [\s] matches and what [trim]
    strips. *)
Definition isWhiteSpace (c : N) : bool :=
  inRange 9 13 c || (c =? 32) || (c =? 0xA0) || (c =? 0x1680)
  || inRange 0x2000 0x200A c || (c =? 0x2028) || (c =? 0x2029)
  || (c =? 0x202F) || (c =? 0x205F) || (c =? 0x3000) || (c =? 0xFEFF).

Fixpoint dropWhile (p : N -> bool) (s : jsstring) : jsstring :=
  match s with
  | [] => []
  | c :: r => if p c then dropWhile p r else s
  end.

Fixpoint takeWhile (p : N -> bool) (s : jsstring) : jsstring :=
  match s with
  | [] => []
  | c :: r => if p c then c :: takeWhile p r else []
  end.

(** [String.prototype.trim] *)
Definition trim (s : jsstring) : jsstring :=
  rev (dropWhile isWhiteSpace (rev (dropWhile isWhiteSpace s))).

(** Truthiness of a string: non-empty. *)
Definition truthy (s : jsstring) : bool :=
  match s with [] => false | _ :: _ => true end.

(** [s.split(c)] for a one-code-unit separator: never empty. *)
Fixpoint split (c : N) (s : jsstring) : list jsstring :=
  match s with
  | [] => [[]]
  | x :: r =>
      if x =? c then [] :: split c r
      else match split c r with
           | h :: t => (x :: h) :: t
           | [] => [[x]]
           end
  end.

(** [l.join(sep)] *)
Fixpoint join (sep : jsstring) (l : list jsstring) : jsstring :=
  match l with
  | [] => []
  | [x] => x
  | x :: r => x ++ sep ++ join sep r
  end.

(** [s.startsWith(p)], returning the rest. *)
Fixpoint stripPrefix (p s : jsstring) : option jsstring :=
  match p, s with
  | [], _ => Some s
  | a :: p', b :: s' => if a =? b then stripPrefix p' s' else None
  | _ :: _, [] => None
  end.

(** ** Assets and the asset index *)

Record ImageFile := mkImage { name : jsstring; dataUrl : jsstring }.

#[global] Instance ImageFile_eq_dec : EqDecision ImageFile.
Proof. solve_decision. Defined.

(** [const map = new Map(); images.forEach(img => map.set(img.name, img.dataUrl))] *)
Definition imageMap (images : list ImageFile) : gmap jsstring jsstring :=
  fold_left (fun m img => <[name img := dataUrl img]> m) images ∅.

(** [src.split('/').pop()]: the part after the last slash. *)
Definition basename (src : jsstring) : jsstring :=
  List.last (split (ch "/") src) [].

(** What the [img] component of [markdownComponents] returns. *)
Inductive Rendered :=
  | RenderNothing
  | RenderImage (src alt : jsstring)
  | RenderPlaceholder (text : jsstring).

(** The label of the placeholder box, [画像未対応: ] ("image not matched"). *)
Definition placeholderLabel : jsstring :=
  [0x753B; 0x50CF; 0x672A; 0x5BFE; 0x5FDC; 58; 32].

(** The children of the preview element, as [generatePDF] reads them:
    [tagName] and [outerHTML] are [undefined] on text and comment nodes. *)
Record DomNode := mkDom {
  tagName : option jsstring;
  outerHTML : option jsstring;
  textContent : option jsstring;
}.

Definition optTruthy (o : option jsstring) : bool :=
  match o with Some s => truthy s | None => false end.

(** *** [src/app/page.tsx] *)
Module PageTsx.

Definition resolveImageSrc (images : list ImageFile) (src : jsstring)
  : option jsstring :=
  let fileName := basename src in
  if negb (truthy fileName) then None
  else match imageMap images !! fileName with
       | Some url => if truthy url then Some url else None
       | None => None
       end.

(** [img: ({ src, alt }) => ...]; an absent prop is [None]. *)
Definition img (images : list ImageFile) (src alt : option jsstring)
  : Rendered :=
  match src with
  | None => RenderNothing
  | Some s =>
      if negb (truthy s) then RenderNothing
      else match resolveImageSrc images s with
           | Some resolved => RenderImage resolved (default [] alt)
           | None => RenderPlaceholder (placeholderLabel ++ basename s)
           end
  end.

(** The body of [Array.from(tempDiv.childNodes).forEach((node) => ...)]
    in [generatePDF], on the pair [(sections, currentSection)]. *)
Definition placeChild (st : list jsstring * jsstring) (el : DomNode)
  : list jsstring * jsstring :=
  let '(sections, currentSection) := st in
  if bool_decide (tagName el = Some (js "H2")) then
    ((if truthy (trim currentSection) then sections ++ [currentSection]
      else sections),
     default [] (outerHTML el))
  else if bool_decide (tagName el = Some (js "HR")) then st
  else if optTruthy (outerHTML el) then
    (sections, currentSection ++ default [] (outerHTML el))
  else if optTruthy (trim <$> textContent el) then
    (sections, currentSection ++ default [] (textContent el))
  else st.

(** The page bodies of the heading-split paginator. *)
Definition paginate (childNodes : list DomNode) : list jsstring :=
  let '(sections, currentSection) := fold_left placeChild childNodes ([], []) in
  if truthy (trim currentSection) then sections ++ [currentSection]
  else sections.

(** [imageRefRegex] at the start of [s]: an exclamation mark and an
    opening bracket, a run free of closing brackets, a closing bracket
    and an opening parenthesis, a non-empty run free of closing
    parentheses (capture group 2), a closing parenthesis. Returns group 2
    and the length of the match. Each run is followed by the one code
    unit it excludes, so the greedy runs are the only way to match. *)
Definition imageRefMatch (s : jsstring) : option (jsstring * nat) :=
  match stripPrefix (js "![") s with
  | Some r =>
      let alt := takeWhile (fun c => negb (c =? ch "]")) r in
      match stripPrefix (js "](") (dropWhile (fun c => negb (c =? ch "]")) r) with
      | Some r2 =>
          match takeWhile (fun c => negb (c =? ch ")")) r2,
                dropWhile (fun c => negb (c =? ch ")")) r2 with
          | (_ :: _) as url, _ :: _ =>
              Some (url, (2 + length alt + 2 + length url + 1)%nat)
          | _, _ => None
          end
      | None => None
      end
  | None => None
  end.

(** [while ((match = imageRefRegex.exec(markdownContent)) !== null) refs.push(match[2])]
    with the [g] flag: the leftmost match from [lastIndex] on, then on
    from its end. [skip] counts the code units of the last match still
    to pass. *)
Fixpoint collectRefs (skip : nat) (s : jsstring) : list jsstring :=
  match s with
  | [] => []
  | _ :: r =>
      match skip with
      | S k => collectRefs k r
      | O =>
          match imageRefMatch s with
          | Some (url, len) => url :: collectRefs (len - 1) r
          | None => collectRefs 0 r
          end
      end
  end.

(** [{ total, matched, unmatched }] *)
Record MatchStatus := mkStatus {
  total : nat;
  matched : nat;
  unmatched : list jsstring;
}.

(** The body of [refs.forEach((ref) => ...)], on [(matched, unmatched)]. *)
Definition countRef (images : list ImageFile) (st : nat * list jsstring)
    (ref : jsstring) : nat * list jsstring :=
  let fileName := basename ref in
  if truthy fileName && bool_decide (is_Some (imageMap images !! fileName))
  then (S st.1, st.2)
  else (st.1, st.2 ++ [ref]).

Definition matchStatus (markdownContent : jsstring) (images : list ImageFile)
  : MatchStatus :=
  if negb (truthy markdownContent) then mkStatus 0 0 []
  else
    let refs := collectRefs 0 markdownContent in
    let st := fold_left (countRef images) refs (0%nat, []) in
    mkStatus (length refs) st.1 st.2.

(** [setImages((prev) => [...prev, ...loadedImages])] *)
Definition addImages (prev loadedImages : list ImageFile) : list ImageFile :=
  prev ++ loadedImages.

(** [setImages((prev) => prev.filter((_, i) => i !== index))] *)
Definition removeImage (index : nat) (prev : list ImageFile) : list ImageFile :=
  snd <$> filter (fun p => p.1 ≠ index) (imap pair prev).

End PageTsx.

(** *** The host environment

    Two things the Auto-Linker takes from the JavaScript engine are kept
    abstract: the collation behind
    [a.name.localeCompare(b.name, 'ja', { numeric: true })], of which only
    the fact that [Array.prototype.sort] permutes its input is used, and
    the printing of numbers that [parseInt] cannot represent exactly
    (2^53 and above), which is floating-point. *)
Class Host := {
  localeSort : list ImageFile -> list ImageFile;
  localeSort_perm : forall l, localeSort l ≡ₚ l;
  inexactToString : N -> jsstring;
}.

(** *** [src/unnamed/part_001] *)
Module Part001.

(** [/!\[.*?\]\(.*?\)/.test(markdownContent)] *)

(** [.*?] followed by the continuation [k]. *)
Fixpoint lazyDots (k : jsstring -> bool) (s : jsstring) : bool :=
  k s || match s with
         | [] => false
         | c :: r => negb (isLineTerminator c) && lazyDots k r
         end.

Definition startsWith (p s : jsstring) : bool :=
  match stripPrefix p s with Some _ => true | None => false end.

Definition imageRefAt (s : jsstring) : bool :=
  match stripPrefix (js "![") s with
  | Some r =>
      lazyDots (fun r1 =>
        match stripPrefix (js "](") r1 with
        | Some r2 => lazyDots (startsWith (js ")")) r2
        | None => false
        end) r
  | None => false
  end.

Fixpoint mdHasImageRefs (markdownContent : jsstring) : bool :=
  imageRefAt markdownContent
  || match markdownContent with
     | [] => false
     | _ :: r => mdHasImageRefs r
     end.

(** Heading references: [{ lineIndex, key, level }]. *)
Record Heading := mkHeading { lineIndex : nat; key : jsstring; level : nat }.

(** [line.match(/^## (\d+)\.\s/)]: capture group 1. The digit run is
    followed by a dot, so the greedy [\d+] takes the whole run. *)
Definition h2Match (line : jsstring) : option jsstring :=
  match stripPrefix (js "## ") line with
  | Some r =>
      match takeWhile isDigit r, dropWhile isDigit r with
      | (_ :: _) as g1, dot :: ws :: _ =>
          if (dot =? ch ".") && isWhiteSpace ws then Some g1 else None
      | _, _ => None
      end
  | None => None
  end.

(** [line.match(/^### (\d+)[-.](\d+)/)]: capture groups 1 and 2. *)
Definition h3Match (line : jsstring) : option (jsstring * jsstring) :=
  match stripPrefix (js "### ") line with
  | Some r =>
      match takeWhile isDigit r, dropWhile isDigit r with
      | (_ :: _) as g1, sep :: r' =>
          if (sep =? ch "-") || (sep =? ch ".") then
            match takeWhile isDigit r' with
            | (_ :: _) as g2 => Some (g1, g2)
            | [] => None
            end
          else None
      | _, _ => None
      end
  | None => None
  end.

(** [parseInt] on a run of decimal digits. *)
Definition parseInt (digits : jsstring) : N :=
  fold_left (fun acc d => acc * 10 + (d - 48)) digits 0.

Fixpoint uintCodes (u : Decimal.uint) : jsstring :=
  match u with
  | Decimal.Nil => []
  | Decimal.D0 r => 48 :: uintCodes r
  | Decimal.D1 r => 49 :: uintCodes r
  | Decimal.D2 r => 50 :: uintCodes r
  | Decimal.D3 r => 51 :: uintCodes r
  | Decimal.D4 r => 52 :: uintCodes r
  | Decimal.D5 r => 53 :: uintCodes r
  | Decimal.D6 r => 54 :: uintCodes r
  | Decimal.D7 r => 55 :: uintCodes r
  | Decimal.D8 r => 56 :: uintCodes r
  | Decimal.D9 r => 57 :: uintCodes r
  end.

(** [Number.prototype.toString] on the result of [parseInt]: decimal
    digits while the value is exactly representable. *)
Definition numberToString `{Host} (v : N) : jsstring :=
  if v <? 2 ^ 53 then uintCodes (N.to_uint v) else inexactToString v.

(** The body of [lines.forEach((line, index) => ...)]. *)
Definition headingOf `{Host} (index : nat) (line : jsstring) : option Heading :=
  match h2Match line with
  | Some g1 => Some (mkHeading index g1 2)
  | None =>
      match h3Match line with
      | Some (g1, g2) =>
          Some (mkHeading index
                  (numberToString (parseInt g1) ++ js "."
                     ++ numberToString (parseInt g2)) 3)
      | None => None
      end
  end.

Fixpoint detectFrom `{Host} (index : nat) (lines : list jsstring) : list Heading :=
  match lines with
  | [] => []
  | line :: r =>
      match headingOf index line with
      | Some h => h :: detectFrom (S index) r
      | None => detectFrom (S index) r
      end
  end.

Definition detectSections `{Host} (lines : list jsstring) : list Heading :=
  detectFrom 0 lines.

(** [/^0*(\d+)[-_.](?:0*(\d+)[-_.])?/] *)

Definition isPrefixSep (c : N) : bool :=
  (c =? ch "-") || (c =? ch "_") || (c =? ch ".").

(** What [0*(\d+)] captures on a digit run: the run without its leading
    zeros, the last zero kept when there is nothing else. *)
Fixpoint stripZeros (digits : jsstring) : jsstring :=
  match digits with
  | [] => []
  | c :: r =>
      match r with
      | [] => digits
      | _ :: _ => if c =? 48 then stripZeros r else digits
      end
  end.

(** [0*(\d+)[-_.]] at the start of [s]: the capture and what follows. *)
Definition numericGroup (s : jsstring) : option (jsstring * jsstring) :=
  match takeWhile isDigit s, dropWhile isDigit s with
  | (_ :: _) as digits, sep :: rest =>
      if isPrefixSep sep then Some (stripZeros digits, rest) else None
  | _, _ => None
  end.

(** [img.name.match(...)]: [match[1]] and [match[2]]. *)
Definition screenshotMatch (nm : jsstring) : option (jsstring * option jsstring) :=
  match numericGroup nm with
  | Some (g1, rest) => Some (g1, fst <$> numericGroup rest)
  | None => None
  end.

(** [sections.find(s => s.key === k)], as a truth value. *)
Definition findKey (sections : list Heading) (k : jsstring) : bool :=
  existsb (fun s => bool_decide (key s = k)) sections.

(** [if (!m.has(k)) m.set(k, []); m.get(k).push(img)] *)
Definition pushTo (m : gmap jsstring (list ImageFile)) (k : jsstring)
    (img : ImageFile) : gmap jsstring (list ImageFile) :=
  <[k := default [] (m !! k) ++ [img]]> m.

(** The body of [sortedScreenshots.forEach((img) => ...)], on the pair
    [(screenshotsByKey, unmatchedScreenshots)]. *)
Definition classify `{Host} (sections : list Heading)
    (st : gmap jsstring (list ImageFile) * list ImageFile) (img : ImageFile)
  : gmap jsstring (list ImageFile) * list ImageFile :=
  let '(screenshotsByKey, unmatchedScreenshots) := st in
  match screenshotMatch (name img) with
  | Some (g1, g2) =>
      let major := numberToString (parseInt g1) in
      let minor := (fun g => numberToString (parseInt g)) <$> g2 in
      let exactKey := (fun mi => major ++ js "." ++ mi) <$> minor in
      match exactKey with
      | Some ek =>
          if findKey sections ek then
            (pushTo screenshotsByKey ek img, unmatchedScreenshots)
          else if findKey sections major then
            (pushTo screenshotsByKey major img, unmatchedScreenshots)
          else (screenshotsByKey, unmatchedScreenshots ++ [img])
      | None =>
          if findKey sections major then
            (pushTo screenshotsByKey major img, unmatchedScreenshots)
          else (screenshotsByKey, unmatchedScreenshots ++ [img])
      end
  | None => (screenshotsByKey, unmatchedScreenshots ++ [img])
  end.

Definition groupScreenshots `{Host} (sections : list Heading)
    (sortedScreenshots : list ImageFile)
  : gmap jsstring (list ImageFile) * list ImageFile :=
  fold_left (classify sections) sortedScreenshots (∅, []).

(** [`\n![${img.name}](${img.name})\n`] *)
Definition imageLine (img : ImageFile) : jsstring :=
  js (String "010" "![") ++ name img ++ js "](" ++ name img
    ++ js (String ")" (String "010" EmptyString)).

(** [result[j]?.trim() === '---'] *)
Definition isSeparatorAt (result : list jsstring) (j : nat) : bool :=
  match result !! j with
  | Some line => bool_decide (trim line = js "---")
  | None => false
  end.

(** [for (let j = insertAt - 1; j > lineIndex; j--) if (...) { insertAt = j; break; }]
    with [j + 1] as the counter; [insertAt] is returned when the loop
    runs out. *)
Fixpoint backtrack (result : list jsstring) (lineIdx : nat) (insertAt : nat)
    (j1 : nat) : nat :=
  match j1 with
  | O => insertAt
  | S j =>
      if bool_decide (lineIdx < j)%nat then
        if isSeparatorAt result j then j else backtrack result lineIdx insertAt j
      else insertAt
  end.

(** [result.splice(insertAt, 0, ...items)] *)
Definition splice (result : list jsstring) (insertAt : nat)
    (items : list jsstring) : list jsstring :=
  take insertAt result ++ items ++ drop insertAt result.

(** [for (let i = sections.length - 1; i >= 0; i--) { ... }], with
    [i + 1] as the counter. *)
Fixpoint spliceLoop (sections : list Heading)
    (screenshotsByKey : gmap jsstring (list ImageFile))
    (i1 : nat) (result : list jsstring) : list jsstring :=
  match i1 with
  | O => result
  | S i =>
      match sections !! i with
      | None => spliceLoop sections screenshotsByKey i result
      | Some section =>
          match screenshotsByKey !! key section with
          | None | Some [] => spliceLoop sections screenshotsByKey i result
          | Some matched =>
              let insertAt :=
                match sections !! S i with
                | Some next =>
                    backtrack result (lineIndex section) (lineIndex next)
                      (lineIndex next)
                | None => length result
                end in
              spliceLoop sections screenshotsByKey i
                (splice result insertAt (imageLine <$> matched))
          end
      end
  end.

(** ['## 参考スクリーンショット\n'] ("reference screenshots"). *)
Definition referenceHeading : jsstring :=
  js "## " ++ [0x53C2; 0x8003; 0x30B9; 0x30AF; 0x30EA; 0x30FC; 0x30F3;
               0x30B7; 0x30E7; 0x30C3; 0x30C8; 10].

Definition separatorItem : jsstring :=
  10 :: js "---" ++ [10].

(** [if (unmatchedScreenshots.length > 0) { result.push(...) ... }] *)
Definition appendUnmatched (result : list jsstring)
    (unmatchedScreenshots : list ImageFile) : list jsstring :=
  match unmatchedScreenshots with
  | [] => result
  | _ :: _ =>
      result ++ [separatorItem; referenceHeading]
        ++ (imageLine <$> unmatchedScreenshots)
  end.

Definition processedMarkdown `{Host} (markdownContent : jsstring)
    (screenshots : list ImageFile) : jsstring :=
  if mdHasImageRefs markdownContent
     || bool_decide (length screenshots = 0%nat)
     || negb (truthy markdownContent)
  then markdownContent
  else
    let lines := split 10 markdownContent in
    let sections := detectSections lines in
    if bool_decide (length sections = 0%nat) then markdownContent
    else
      let '(screenshotsByKey, unmatchedScreenshots) :=
        groupScreenshots sections (localeSort screenshots) in
      let result :=
        spliceLoop sections screenshotsByKey (length sections) lines in
      join [10] (appendUnmatched result unmatchedScreenshots).

Definition img (images : list ImageFile) (src alt : option jsstring)
  : Rendered :=
  let srcStr := default [] src in
  if negb (truthy srcStr) then RenderNothing
  else
    let fileName := basename srcStr in
    let resolved :=
      match imageMap images !! fileName with
      | Some url => if truthy url then Some url else None
      | None => None
      end in
    match resolved with
    | Some url => RenderImage url (default [] alt)
    | None => RenderPlaceholder (placeholderLabel ++ fileName)
    end.

(** [{ tag, html, isImage }] *)
Record PageNode := mkNode { tag : jsstring; html : jsstring; isImage : bool }.

(** The body of [Array.from(tempDiv.childNodes).forEach((node) => ...)]:
    the node pushed onto [nodes], if any. *)
Definition flattenNode (el : DomNode) : option PageNode :=
  if bool_decide (tagName el = Some (js "HR")) then None
  else if optTruthy (outerHTML el) then
    Some (mkNode (default [] (tagName el)) (default [] (outerHTML el))
            (bool_decide (tagName el = Some (js "IMG"))))
  else if optTruthy (trim <$> textContent el) then
    Some (mkNode [] (default [] (textContent el)) false)
  else None.

Definition flattenNodes (childNodes : list DomNode) : list PageNode :=
  omap flattenNode childNodes.

Definition MAX_PAGE_HEIGHT : N := 880.

(** [html.replace(/<[^>]*>/g, '')]: from each [<] that has a [>] after
    it, everything up to the first such [>] goes. *)
Fixpoint stripTags (inTag : bool) (s : jsstring) : jsstring :=
  match s with
  | [] => []
  | c :: r =>
      if inTag then
        if c =? ch ">" then stripTags false r else stripTags true r
      else if (c =? ch "<") && existsb (N.eqb (ch ">")) r then stripTags true r
      else c :: stripTags false r
  end.

(** [(html.match(/<li/g) || []).length] *)
Fixpoint countLi (s : jsstring) : N :=
  (if startsWith (js "<li") s then 1 else 0)
  + match s with
    | [] => 0
    | _ :: r => countLi r
    end.

Definition estimateHeight (node : PageNode) : N :=
  if isImage node then 400
  else if bool_decide (tag node = js "H1") then 50
  else if bool_decide (tag node = js "H2") then 45
  else if bool_decide (tag node = js "H3") then 35
  else if bool_decide (tag node = js "P") then
    let textLen := N.of_nat (length (stripTags false (html node))) in
    N.max 25 ((textLen + 59) / 60 * 20)
  else if bool_decide (tag node = js "UL") || bool_decide (tag node = js "OL") then
    let items := countLi (html node) in
    N.max 30 (items * 22)
  else 25.

(** [/^<h[1-4][^>]*>[\s\S]*<\/h[1-4]>$/i.test(s)] *)

Definition isH (c : N) : bool := (c =? ch "h") || (c =? ch "H").

(** [<\/h[1-4]>$]: the last five code units. *)
Definition endsWithHeadingClose (s : jsstring) : bool :=
  match rev s with
  | gt :: d :: h :: sl :: lt :: _ =>
      (gt =? ch ">") && inRange 49 52 d && isH h && (sl =? ch "/")
      && (lt =? ch "<")
  | _ => false
  end.

Definition isOnlyHeading (s : jsstring) : bool :=
  match s with
  | lt :: h :: d :: r =>
      (lt =? ch "<") && isH h && inRange 49 52 d
      && match dropWhile (fun c => negb (c =? ch ">")) r with
         | _ :: body => endsWithHeadingClose body
         | [] => false
         end
  | _ => false
  end.

Record PagState := mkPag {
  sections : list jsstring;
  currentSection : jsstring;
  currentHeight : N;
}.

(** The body of [nodes.forEach((node, idx) => ...)]. *)
Definition placeNode (st : PagState) (node : PageNode) : PagState :=
  let nodeHeight := estimateHeight node in
  if bool_decide (tag node = js "H2") && truthy (trim (currentSection st)) then
    mkPag (sections st ++ [currentSection st]) (html node) nodeHeight
  else
    let st' :=
      if (MAX_PAGE_HEIGHT <? currentHeight st + nodeHeight)
         && truthy (trim (currentSection st)) then
        if negb (isOnlyHeading (trim (currentSection st))) then
          mkPag (sections st ++ [currentSection st]) [] 0
        else st
      else st in
    mkPag (sections st') (currentSection st' ++ html node)
      (currentHeight st' + nodeHeight).

(** [if (currentSection.trim()) sections.push(currentSection)] *)
Definition finish (st : PagState) : list jsstring :=
  if truthy (trim (currentSection st)) then sections st ++ [currentSection st]
  else sections st.

(** The page bodies [generatePDF] computes from the flattened nodes. *)
Definition paginate (nodes : list PageNode) : list jsstring :=
  finish (fold_left placeNode nodes (mkPag [] [] 0)).

(** The same walk with the nodes of each page kept apart: a record of
    which node went to which page, used to state where pages break. *)
Record Layout := mkLayout {
  donePages : list (list PageNode);
  openPage : list PageNode;
  openHeight : N;
}.

Definition markup (page : list PageNode) : jsstring :=
  concat (html <$> page).

Definition layoutNode (st : Layout) (node : PageNode) : Layout :=
  let nodeHeight := estimateHeight node in
  if bool_decide (tag node = js "H2") && truthy (trim (markup (openPage st))) then
    mkLayout (donePages st ++ [openPage st]) [node] nodeHeight
  else
    let st' :=
      if (MAX_PAGE_HEIGHT <? openHeight st + nodeHeight)
         && truthy (trim (markup (openPage st))) then
        if negb (isOnlyHeading (trim (markup (openPage st)))) then
          mkLayout (donePages st ++ [openPage st]) [] 0
        else st
      else st in
    mkLayout (donePages st') (openPage st' ++ [node])
      (openHeight st' + nodeHeight).

Definition layoutFinish (st : Layout) : list (list PageNode) :=
  if truthy (trim (markup (openPage st))) then donePages st ++ [openPage st]
  else donePages st.

Definition layout (nodes : list PageNode) : list (list PageNode) :=
  layoutFinish (fold_left layoutNode nodes (mkLayout [] [] 0)).

(** The wait for the images of the print window. [loaded] is the
    counter, [triggered] the number of calls of [triggerPrint] (each
    schedules one [print()] and, in this snapshot, the reset of
    [isGenerating]). *)
Record ExportState := mkExport { loaded : nat; triggered : nat }.

(** [loaded++; if (loaded === totalImgs) triggerPrint();] *)
Definition settle (totalImgs : nat) (st : ExportState) : ExportState :=
  mkExport (S (loaded st))
    (if bool_decide (S (loaded st) = totalImgs) then S (triggered st)
     else triggered st).

(** [if (totalImgs === 0) triggerPrint(); else imgs.forEach((img) => ...)]
    on the [complete] flags of the images: a complete image is counted at
    once, the others get their handlers. *)
Definition startWaiting (complete : list bool) : ExportState :=
  let totalImgs := length complete in
  if bool_decide (totalImgs = 0%nat) then mkExport 0 1
  else
    fold_left (fun st (c : bool) => if c then settle totalImgs st else st)
      complete (mkExport 0 0).

(** A [load] or [error] event on the image of that index. *)
Inductive ImgEvent := OnLoad (i : nat) | OnError (i : nat).

Definition eventImage (e : ImgEvent) : nat :=
  match e with OnLoad i | OnError i => i end.

(** The handlers [img.onload] and [img.onerror]: set on the images that
    were not complete, both do the same. *)
Definition handleEvent (complete : list bool) (st : ExportState)
    (e : ImgEvent) : ExportState :=
  match complete !! eventImage e with
  | Some false => settle (length complete) st
  | _ => st
  end.

Definition waitForImages (complete : list bool) (events : list ImgEvent)
  : ExportState :=
  fold_left (handleEvent complete) events (startWaiting complete).

(** [x.toFixed(1)] for the exact quotient [x = num / den]: the nearest
    number of tenths, the larger one on a tie, printed with one
    decimal. *)
Definition tenths (num den : N) : N := (num * 20 + den) / (2 * den).

Definition toFixed1 (num den : N) : jsstring :=
  uintCodes (N.to_uint (tenths num den / 10)) ++ js "."
    ++ uintCodes (N.to_uint (tenths num den mod 10)).

(** [formatFileSize], on a size in bytes below 2^53 (the quotients by
    1024 and 1024 * 1024 are then exact). *)
Definition formatFileSize (bytes : N) : jsstring :=
  if bytes <? 1024 then uintCodes (N.to_uint bytes) ++ js " B"
  else if bytes <? 1024 * 1024 then toFixed1 bytes 1024 ++ js " KB"
  else toFixed1 bytes (1024 * 1024) ++ js " MB".

End Part001.

(** ** A sample host

    A stand-in for the engine, used to run the Auto-Linker on concrete
    inputs: names are ordered by their code units with a stable insertion
    sort, and every number is printed in full. *)

Fixpoint nameLt (a b : jsstring) : bool :=
  match a, b with
  | _, [] => false
  | [], _ :: _ => true
  | x :: a', y :: b' => (x <? y) || ((x =? y) && nameLt a' b')
  end.

Fixpoint insertByName (img : ImageFile) (l : list ImageFile) : list ImageFile :=
  match l with
  | [] => [img]
  | x :: r =>
      if nameLt (name x) (name img) then x :: insertByName img r
      else img :: l
  end.

Definition sortByName (l : list ImageFile) : list ImageFile :=
  foldr insertByName [] l.

#[export] Instance sampleHost : Host.
Proof.
  refine {| localeSort := sortByName;
            inexactToString := fun v => Part001.uintCodes (N.to_uint v) |}.
  assert (Hins : forall img l, insertByName img l ≡ₚ img :: l).
  { intros img l. induction l as [|x r IH]; simpl; [reflexivity|].
    destruct (nameLt (name x) (name img)); [|reflexivity].
    rewrite IH. apply Permutation_swap. }
  intros l. induction l as [|x r IH]; simpl; [reflexivity|].
  rewrite Hins. by rewrite IH.
Defined.

(** * Specification vocabulary

    The predicates and functions the theorems are stated with. *)

Import Part001.
Arguments markup : simpl never.

(** The asset a file name denotes: the last uploaded one of that name
    ([Map.set] overwrites). *)
Definition lastNamed (images : list ImageFile) (k : jsstring) : option ImageFile :=
  last (filter (fun i => name i = k) images).

(** A text contains an inline image reference [![alt](url)], [alt] and
    [url] free of line terminators. *)
Definition ContainsImageRef (md : jsstring) : Prop :=
  ∃ pre alt url post,
    md = pre ++ js "![" ++ alt ++ js "](" ++ url ++ js ")" ++ post
    ∧ Forall (fun c => isLineTerminator c = false) alt
    ∧ Forall (fun c => isLineTerminator c = false) url.

(** What the DOM guarantees of a child node: an element has a tag name
    and an [outerHTML] that starts with [<]; text and comment nodes have
    neither property. *)
Definition WellFormedDom (el : DomNode) : Prop :=
  match tagName el, outerHTML el with
  | Some _, Some h => ∃ r, h = ch "<" :: r
  | None, None => True
  | _, _ => False
  end.

(** Not blank: [s.trim()] is truthy. *)
Definition Solid (s : jsstring) : Prop := truthy (trim s) = true.

(** The markup held by a paginator state. *)
Definition content (st : PagState) : jsstring :=
  concat (sections st) ++ currentSection st.

(** The markup a child node contributes to the pages, if any. *)
Definition nodeMarkup (el : DomNode) : jsstring :=
  from_option html [] (flattenNode el).

(** Forgetting which node went where gives the state of [placeNode]. *)
Definition erase (g : Layout) : PagState :=
  mkPag (markup <$> donePages g) (markup (openPage g)) (openHeight g).

(** Placing the node closes the open page and starts a new one with the
    node. *)
Definition flushes (g : Layout) (node : PageNode) : Prop :=
  donePages (layoutNode g node) = donePages g ++ [openPage g]
  ∧ openPage (layoutNode g node) = [node].

(** The node joins the open page. *)
Definition keeps (g : Layout) (node : PageNode) : Prop :=
  donePages (layoutNode g node) = donePages g
  ∧ openPage (layoutNode g node) = openPage g ++ [node].

(** The tag of a heading element, first to fourth level. *)
Definition isHeadingTag (t : jsstring) : bool :=
  bool_decide (t = js "H1") || bool_decide (t = js "H2")
  || bool_decide (t = js "H3") || bool_decide (t = js "H4").

(** The serialisation of a heading element: [<hN ...>...</hN>]. *)
Definition HeadingMarkup (s : jsstring) : Prop :=
  ∃ d attrs inner,
    inRange 49 52 d = true
    ∧ s = [ch "<"; ch "h"; d] ++ attrs ++ ch ">" :: inner
            ++ [ch "<"; ch "/"; ch "h"; d; ch ">"].

(** Nodes tagged as headings carry the markup of a heading. *)
Definition HeadingWF (node : PageNode) : Prop :=
  isHeadingTag (tag node) = true → HeadingMarkup (html node).

(** A page that a second-level heading opens. *)
Definition H2First (page : list PageNode) : Prop :=
  ∃ m rest, page = m :: rest ∧ tag m = js "H2".

(** The estimated height of the nodes of a page. *)
Fixpoint pageHeight (page : list PageNode) : N :=
  match page with
  | [] => 0
  | node :: rest => estimateHeight node + pageHeight rest
  end.

(** What a run of the paginator maintains: the height is that of the open
    page, and a finished page that is a lone heading is followed by a
    page that a second-level heading opens. *)
Record LayoutInv (g : Layout) : Prop := {
  inv_height : openHeight g = pageHeight (openPage g);
  inv_wf : Forall HeadingWF (openPage g);
  inv_lone : ∀ i n, donePages g !! i = Some [n] → isHeadingTag (tag n) = true →
             ∃ p, (donePages g ++ [openPage g]) !! S i = Some p ∧ H2First p;
}.

(** Where the images of a heading go, computed on the original lines. *)
Definition insertPoint (lines : list jsstring) (s : Heading)
    (next : option Heading) : nat :=
  match next with
  | Some nx => backtrack lines (lineIndex s) (lineIndex nx) (lineIndex nx)
  | None => length lines
  end.

(** The lines from [from] on, with the images of each heading put in at
    its insertion point. *)
Fixpoint weave (lines : list jsstring) (bucket : Heading → list ImageFile)
    (from : nat) (sections : list Heading) : list jsstring :=
  match sections with
  | [] => drop from lines
  | s :: rest =>
      let p := insertPoint lines s (head rest) in
      take (p - from) (drop from lines)
        ++ (imageLine <$> bucket s) ++ weave lines bucket p rest
  end.

(** Headings in document order, all within the first [bound] lines. *)
Fixpoint Ordered (bound : nat) (sections : list Heading) : Prop :=
  match sections with
  | [] => True
  | s :: rest =>
      (lineIndex s < bound)%nat
      ∧ match rest with
        | [] => True
        | nx :: _ => (lineIndex s < lineIndex nx)%nat
        end
      ∧ Ordered bound rest
  end.

(** The insertion point in the words of the specification: the line of
    the next heading, or the last separator-only line between the two
    headings when there is one; the end of the document after the last
    heading. *)
Definition PlacedBefore (lines : list jsstring) (s : Heading)
    (next : option Heading) (p : nat) : Prop :=
  match next with
  | None => p = length lines
  | Some nx =>
      (lineIndex s < p ≤ lineIndex nx)%nat
      ∧ (∀ j, (p < j < lineIndex nx)%nat → isSeparatorAt lines j = false)
      ∧ (p = lineIndex nx
         ∧ (∀ j, (lineIndex s < j < lineIndex nx)%nat → isSeparatorAt lines j = false)
         ∨ (p < lineIndex nx)%nat ∧ isSeparatorAt lines p = true)
  end.

Section Vocabulary.
Context `{Host}.

(** The major key of a file name with a numeric prefix. *)
Definition majorOf (nm : jsstring) : option jsstring :=
  match screenshotMatch nm with
  | Some (g1, _) => Some (numberToString (parseInt g1))
  | None => None
  end.

(** The [major.minor] key of a file name with both numbers. *)
Definition exactKeyOf (nm : jsstring) : option jsstring :=
  match screenshotMatch nm with
  | Some (g1, Some g2) =>
      Some (numberToString (parseInt g1) ++ js "."
              ++ numberToString (parseInt g2))
  | _ => None
  end.

(** A key some recorded heading carries. *)
Definition recorded (sections : list Heading) (k : jsstring) : Prop :=
  k ∈ key <$> sections.

#[global] Instance recorded_dec sections k : Decision (recorded sections k).
Proof. unfold recorded. apply _. Defined.

(** The major key when it is recorded. *)
Definition majorBucket (sections : list Heading) (nm : jsstring)
  : option jsstring :=
  match majorOf nm with
  | Some major => if decide (recorded sections major) then Some major else None
  | None => None
  end.

(** The key a file name asks for, in the words of the specification:
    the exact [major.minor] key when the pair exists and is recorded,
    else the major key when it is recorded, else none. *)
Definition bucketKey (sections : list Heading) (nm : jsstring)
  : option jsstring :=
  match exactKeyOf nm with
  | Some exactKey =>
      if decide (recorded sections exactKey) then Some exactKey
      else majorBucket sections nm
  | None => majorBucket sections nm
  end.

(** The asset asks for bucket [k] ([None]: it is unmatched). *)
Definition wants (sections : list Heading) (k : option jsstring)
    (img : ImageFile) : Prop :=
  bucketKey sections (name img) = k.

#[global] Instance wants_dec sections k img : Decision (wants sections k img).
Proof. unfold wants. apply _. Defined.

(** The assets whose file name asks for a recorded key. *)
Definition matched (sections : list Heading) (img : ImageFile) : Prop :=
  is_Some (bucketKey sections (name img)).

#[global] Instance matched_dec sections img : Decision (matched sections img).
Proof. unfold matched. apply _. Defined.

(** The assets of a heading, in the order of [assets]. *)
Definition bucketFor (sections : list Heading) (assets : list ImageFile)
    (s : Heading) : list ImageFile :=
  filter (wants sections (Some (key s))) assets.

End Vocabulary.

(** ** Vocabulary of the further properties *)

(** An occurrence of an image reference with the path [url]. *)
Definition RefersTo (md url : jsstring) : Prop :=
  ∃ pre alt post,
    md = pre ++ js "![" ++ alt ++ js "](" ++ url ++ js ")" ++ post
    ∧ (ch "]" ∉ alt) ∧ (ch ")" ∉ url) ∧ url ≠ [].

(** A reference the index can serve: its basename is not empty and names
    an asset. *)
Definition Served (images : list ImageFile) (ref : jsstring) : Prop :=
  basename ref ≠ [] ∧ is_Some (imageMap images !! basename ref).

#[global] Instance Served_dec images ref : Decision (Served images ref).
Proof. unfold Served. apply _. Defined.

(** The images that get a handler: those not complete when the print
    window was filled. *)
Definition pendingImage (complete : list bool) (i : nat) : Prop :=
  complete !! i = Some false.

#[global] Instance pendingImage_dec complete i : Decision (pendingImage complete i).
Proof. unfold pendingImage. apply _. Defined.

(** How many images have settled: the complete ones and one for each
    event on a pending image. *)
Definition settledCount (complete : list bool) (events : list ImgEvent) : nat :=
  length (filter (fun c => c = true) complete)
  + length (filter (fun e => pendingImage complete (eventImage e)) events).

(** The counter and the trigger go together: the print is called for
    once the counter has reached the total. *)
Definition Counted (totalImgs : nat) (st : ExportState) : Prop :=
  triggered st = if decide (totalImgs ≤ loaded st)%nat then 1%nat else 0%nat.

(** The indices of the pending images. *)
Definition pendingImages (complete : list bool) : list nat :=
  filter (pendingImage complete) (seq 0 (length complete)).

(** The decimal numeral a run of digits spells. *)
Fixpoint digitsUint (digits : jsstring) : Decimal.uint :=
  match digits with
  | [] => Decimal.Nil
  | c :: r =>
      let u := digitsUint r in
      if c =? 48 then Decimal.D0 u else if c =? 49 then Decimal.D1 u
      else if c =? 50 then Decimal.D2 u else if c =? 51 then Decimal.D3 u
      else if c =? 52 then Decimal.D4 u else if c =? 53 then Decimal.D5 u
      else if c =? 54 then Decimal.D6 u else if c =? 55 then Decimal.D7 u
      else if c =? 56 then Decimal.D8 u else Decimal.D9 u
  end.

Definition allDigits (s : jsstring) : Prop := forallb isDigit s = true.

(** No leading zero, but for the numeral [0] itself. *)
Definition Canonical (digits : jsstring) : Prop :=
  match digits with
  | c :: _ :: _ => c ≠ 48
  | _ => True
  end.

(** The reference line of an asset. *)
Definition refLine (img : ImageFile) : jsstring :=
  js "![" ++ name img ++ js "](" ++ name img ++ js ")".

(** The array the Auto-Linker joins when it does link. *)
Definition linkedLines `{Host} (markdownContent : jsstring)
    (screenshots : list ImageFile) : list jsstring :=
  let lines := split 10 markdownContent in
  let sections := detectSections lines in
  let sorted := localeSort screenshots in
  appendUnmatched (weave lines (bucketFor sections sorted) 0 sections)
    (filter (wants sections None) sorted).

(** A node whose markup is not blank. *)
Definition SolidNode (node : PageNode) : Prop := Solid (html node).

(** [s], leading white space apart, opens like a heading element:
    [<h1] to [<h4], in either case. *)
Definition opensAsHeading (s : jsstring) : bool :=
  match dropWhile isWhiteSpace s with
  | lt :: h :: d :: _ => (lt =? ch "<") && isH h && inRange 49 52 d
  | _ => false
  end.

(** A page as the height-aware paginator leaves it: not empty, a
    second-level heading only in first place, and past the first node a
    node that takes the page over the budget was added only to a page
    that passed the lone-heading test. *)
Record GoodPage (page : list PageNode) : Prop := {
  good_nonempty : page ≠ [];
  good_h2 : Forall (fun n => tag n ≠ js "H2") (tail page);
  good_budget : ∀ pre n post, page = pre ++ n :: post → pre ≠ [] →
      MAX_PAGE_HEIGHT < pageHeight pre + estimateHeight n →
      isOnlyHeading (trim (markup pre)) = true;
}.

(** What a run of the paginator maintains of its pages. *)
Record PagesInv (g : Layout) : Prop := {
  pinv_height : openHeight g = pageHeight (openPage g);
  pinv_solid : Forall SolidNode (openPage g);
  pinv_done : Forall GoodPage (donePages g);
  pinv_open : openPage g = [] ∨ GoodPage (openPage g);
}.

(** The markup of a run of child nodes. *)
Definition runMarkup (els : list DomNode) : jsstring :=
  concat (nodeMarkup <$> els).

(** A page that starts with the markup of one of the second-level
    headings [h2s]. *)
Definition HeadedBy (h2s : list DomNode) (page : jsstring) : Prop :=
  ∃ el h more,
    el ∈ h2s ∧ tagName el = Some (js "H2") ∧ outerHTML el = Some h
    ∧ page = h ++ more.

(** ** Sample data *)

Definition sampleImages : list ImageFile :=
  [mkImage (js "shot.png") (js "data:A"); mkImage (js "other.png") (js "data:B")].

(** How many lines of [out] are [line]. *)
Definition countLines (line out : jsstring) : nat :=
  length (filter (fun l => l = line) (split 10 out)).

Definition shot (n : string) : ImageFile :=
  mkImage (js n) (js "data:image/png;base64,AAAA").

Definition twiceHeaded : jsstring :=
  js "## 1. Setup" ++ 10 :: js "## 1. Setup again".

Definition introDoc : jsstring :=
  js "## 1. Intro" ++ 10 :: js "text" ++ [10].

Definition twoSections : jsstring :=
  js "## 1. One" ++ 10 :: js "a" ++ 10 :: js "## 2. Two" ++ 10 :: js "b".

Definition sampleSections : list Heading :=
  detectSections
    (split 10 (js "## 2. Login" ++ 10 :: js "### 2-1 Form" ++ 10 :: js "## 5. Top")).

Definition sampleDom : list DomNode :=
  [mkDom (Some (js "H1")) (Some (js "<h1>Manual</h1>")) (Some (js "Manual"));
   mkDom None None (Some [10]);
   mkDom (Some (js "HR")) (Some (js "<hr>")) (Some []);
   mkDom (Some (js "P")) (Some (js "<p>text</p>")) (Some (js "text"));
   mkDom (Some (js "H2")) (Some (js "<h2>1. Intro</h2>")) (Some (js "1. Intro"));
   mkDom None None (Some (js "stray"))].

Definition titleNode : PageNode :=
  mkNode (js "H1") (js "<h1>Manual</h1>") false.

Definition sectionNode : PageNode :=
  mkNode (js "H2") (js "<h2 id=s1>1. Intro</h2>") false.

Definition textNode : PageNode := mkNode (js "P") (js "<p>text</p>") false.

(** A list of 41 items: estimated at 902, above the page budget. *)
Definition tallList : PageNode :=
  mkNode (js "UL")
    (js "<ul>" ++ concat (replicate 41 (js "<li>x</li>")) ++ js "</ul>") false.

(** * Theorems *)

(** ** Strings *)

Lemma split_nonempty c s : split c s ≠ [].
Proof.
  destruct s as [|x r]; simpl; [done|].
  destruct (x =? c); [done|]. by destruct (split c r).
Qed.

Lemma split_no_sep c s : c ∉ s → split c s = [s].
Proof.
  induction s as [|x r IH]; intros Hc; simpl; [done|].
  apply not_elem_of_cons in Hc as [Hx Hr].
  destruct (N.eqb_spec x c) as [->|_]; [done|]. by rewrite IH.
Qed.

Lemma split_app_sep c a b :
  ∃ h t, split c (a ++ c :: b) = h :: t ++ split c b.
Proof.
  induction a as [|x a IH]; simpl.
  - rewrite N.eqb_refl. by exists [], [].
  - destruct IH as (h & t & ->). destruct (x =? c).
    + by exists [], (h :: t).
    + by exists (x :: h), t.
Qed.

Lemma last_app_nonempty {A} (l1 l2 : list A) d :
  l2 ≠ [] → List.last (l1 ++ l2) d = List.last l2 d.
Proof.
  intros Hne. induction l1 as [|x l1 IH]; [done|].
  simpl. rewrite <- IH. destruct (l1 ++ l2) eqn:E; [|done].
  by apply app_eq_nil in E as [_ ?].
Qed.

Lemma basename_app_slash dir nm :
  ch "/" ∉ nm → basename (dir ++ ch "/" :: nm) = nm.
Proof.
  intros Hnm. unfold basename.
  destruct (split_app_sep (ch "/") dir nm) as (h & t & ->).
  change (h :: t ++ split (ch "/") nm) with ((h :: t) ++ split (ch "/") nm).
  rewrite last_app_nonempty by apply split_nonempty.
  by rewrite split_no_sep.
Qed.

Lemma basename_no_slash nm : ch "/" ∉ nm → basename nm = nm.
Proof. intros Hnm. unfold basename. by rewrite split_no_sep. Qed.

(** ** The asset index *)

Lemma imageMap_snoc images img :
  imageMap (images ++ [img]) = <[name img := dataUrl img]> (imageMap images).
Proof. unfold imageMap. by rewrite fold_left_app. Qed.

Lemma imageMap_lookup images k :
  imageMap images !! k = dataUrl <$> lastNamed images k.
Proof.
  unfold lastNamed.
  induction images as [|img images IH] using rev_ind; [done|].
  rewrite imageMap_snoc, filter_app, lookup_insert.
  rewrite filter_cons, filter_nil.
  case_decide as Hk.
  - by rewrite last_snoc.
  - by rewrite app_nil_r.
Qed.

Lemma lastNamed_Some images k img :
  lastNamed images k = Some img → img ∈ images ∧ name img = k.
Proof.
  unfold lastNamed. intros Hl. apply last_Some_elem_of in Hl.
  by apply list_elem_of_filter in Hl as [? ?].
Qed.

(** ** The reference resolver *)

Lemma resolveImageSrc_unfold images src :
  PageTsx.resolveImageSrc images src =
    if truthy (basename src) then
      match lastNamed images (basename src) with
      | Some A => if truthy (dataUrl A) then Some (dataUrl A) else None
      | None => None
      end
    else None.
Proof.
  unfold PageTsx.resolveImageSrc. rewrite imageMap_lookup.
  destruct (truthy (basename src)); [|done].
  by destruct (lastNamed images (basename src)).
Qed.

Lemma resolveImageSrc_origin images src url :
  PageTsx.resolveImageSrc images src = Some url →
  ∃ A, A ∈ images ∧ name A = basename src ∧ dataUrl A = url.
Proof.
  rewrite resolveImageSrc_unfold. intros Hr.
  destruct (truthy (basename src)); [|done].
  destruct (lastNamed images (basename src)) as [A|] eqn:HA; [|done].
  apply lastNamed_Some in HA as [Hin Hname].
  destruct (truthy (dataUrl A)); [|done].
  exists A. by simplify_eq.
Qed.

Lemma img_resolved_origin images src alt url a :
  Part001.img images (Some src) alt = RenderImage url a →
  ∃ A, A ∈ images ∧ name A = basename src ∧ dataUrl A = url.
Proof.
  unfold Part001.img. simpl. rewrite imageMap_lookup.
  destruct (truthy src); [|done]. simpl.
  destruct (lastNamed images (basename src)) as [A|] eqn:HA; [|done].
  apply lastNamed_Some in HA as [Hin Hname]. simpl.
  destruct (truthy (dataUrl A)); [|done].
  intros [= <- _]. by exists A.
Qed.

Lemma lastNamed_other before after B k :
  name B ≠ k → lastNamed (before ++ B :: after) k = lastNamed (before ++ after) k.
Proof.
  intros HB. unfold lastNamed.
  by rewrite !filter_app, filter_cons_False.
Qed.

(** C8. The resolver looks a reference up by its basename: what it
    returns is the content of the last uploaded asset of that name, so it
    comes from an asset of the requested name and does not depend on any
    asset named otherwise; a directory prefix in front of a slash-free
    name changes nothing. Being a function of the asset list and the
    reference, it is deterministic. *)
Theorem resolver_by_basename (images : list ImageFile) (src : jsstring) :
  PageTsx.resolveImageSrc images src =
    (if truthy (basename src) then
       match lastNamed images (basename src) with
       | Some A => if truthy (dataUrl A) then Some (dataUrl A) else None
       | None => None
       end
     else None)
  ∧ (∀ url, PageTsx.resolveImageSrc images src = Some url →
       ∃ A, A ∈ images ∧ name A = basename src ∧ dataUrl A = url)
  ∧ (∀ B before after, name B ≠ basename src →
       PageTsx.resolveImageSrc (before ++ B :: after) src
       = PageTsx.resolveImageSrc (before ++ after) src)
  ∧ (∀ dir nm, src = dir ++ ch "/" :: nm → ch "/" ∉ nm →
       basename src = nm
       ∧ PageTsx.resolveImageSrc images src = PageTsx.resolveImageSrc images nm)
  ∧ (∀ alt url a, Part001.img images (Some src) alt = RenderImage url a →
       ∃ A, A ∈ images ∧ name A = basename src ∧ dataUrl A = url).
Proof.
  split; [apply resolveImageSrc_unfold|].
  split; [apply resolveImageSrc_origin|].
  split.
  { intros B before after HB. rewrite !resolveImageSrc_unfold.
    by rewrite (lastNamed_other _ _ _ _ HB). }
  split; [|apply img_resolved_origin].
  intros dir nm -> Hnm.
  rewrite !resolveImageSrc_unfold, basename_app_slash, basename_no_slash by done.
  done.
Qed.

Lemma resolver_by_basename_witness :
  basename (js "images/shot.png") = js "shot.png"
  ∧ PageTsx.resolveImageSrc sampleImages (js "images/shot.png")
    = Some (js "data:A").
Proof.
  destruct (resolver_by_basename sampleImages (js "images/shot.png"))
    as (_ & _ & _ & Hprefix & _).
  destruct (Hprefix (js "images") (js "shot.png")) as [Hbase Hres];
    [reflexivity| |].
  - apply (bool_decide_unpack _). vm_compute. exact I.
  - split; [exact Hbase|]. rewrite Hres. vm_compute. reflexivity.
Defined.

(** ** The renderer adapter *)

(** C9, as stated, fails at the empty reference: both adapters return
    [null] for it, although its basename is in no asset index. *)
Lemma empty_reference_renders_nothing :
  ¬ (∀ images src alt, imageMap images !! basename src = None →
       PageTsx.img images (Some src) alt
         = RenderPlaceholder (placeholderLabel ++ basename src)
       ∧ Part001.img images (Some src) alt
         = RenderPlaceholder (placeholderLabel ++ basename src)).
Proof.
  intros Hclaim. destruct (Hclaim [] [] None) as [Himg _]; [done|].
  discriminate Himg.
Qed.

(** C9, amended. A non-empty reference whose basename is not in the asset
    index is rendered as the placeholder box carrying that basename (which
    is empty when the reference ends in a slash); the empty or absent
    reference is rendered as nothing; the adapters are total. *)
Theorem unresolved_reference_placeholder (images : list ImageFile)
    (src : jsstring) (alt : option jsstring) :
  (src ≠ [] → imageMap images !! basename src = None →
     PageTsx.img images (Some src) alt
       = RenderPlaceholder (placeholderLabel ++ basename src)
     ∧ Part001.img images (Some src) alt
       = RenderPlaceholder (placeholderLabel ++ basename src))
  ∧ PageTsx.img images (Some []) alt = RenderNothing
  ∧ Part001.img images (Some []) alt = RenderNothing
  ∧ PageTsx.img images None alt = RenderNothing
  ∧ Part001.img images None alt = RenderNothing.
Proof.
  split; [|done].
  intros Hsrc Hnone.
  unfold PageTsx.img, Part001.img, PageTsx.resolveImageSrc. simpl.
  rewrite Hnone. destruct src as [|c r]; [done|]. simpl.
  by destruct (truthy (basename (c :: r))).
Qed.

Lemma unresolved_reference_placeholder_witness :
  PageTsx.img sampleImages (Some (js "img/missing.png")) None
    = RenderPlaceholder (placeholderLabel ++ js "missing.png")
  ∧ Part001.img sampleImages (Some (js "img/")) None
    = RenderPlaceholder placeholderLabel.
Proof.
  split.
  - refine (proj1 (proj1 (unresolved_reference_placeholder sampleImages
                     (js "img/missing.png") None) _ _)); [done|].
    vm_compute. reflexivity.
  - rewrite <- (app_nil_r placeholderLabel).
    refine (proj2 (proj1 (unresolved_reference_placeholder sampleImages
                     (js "img/") None) _ _)); [done|].
    vm_compute. reflexivity.
Defined.

(** ** The Auto-Linker: guards *)

Lemma stripPrefix_app p r : stripPrefix p (p ++ r) = Some r.
Proof.
  induction p as [|a p IH]; simpl; [by destruct r|]. by rewrite N.eqb_refl.
Qed.

Lemma stripPrefix_Some p s r : stripPrefix p s = Some r → s = p ++ r.
Proof.
  revert s. induction p as [|a p IH]; intros s; simpl.
  - destruct s; by intros [= ->].
  - destruct s as [|b s]; [done|].
    destruct (N.eqb_spec a b) as [->|]; [|done].
    intros Hs. by rewrite (IH _ Hs).
Qed.

Lemma lazyDots_intro k x r :
  Forall (fun c => isLineTerminator c = false) x → k r = true →
  lazyDots k (x ++ r) = true.
Proof.
  intros Hx Hk. induction Hx as [|c x Hc _ IH]; simpl.
  - destruct r; simpl; by rewrite Hk.
  - rewrite Hc, IH. simpl. apply orb_true_r.
Qed.

Lemma lazyDots_elim k s :
  lazyDots k s = true →
  ∃ x r, s = x ++ r ∧ Forall (fun c => isLineTerminator c = false) x ∧ k r = true.
Proof.
  induction s as [|c s IH]; simpl; intros Hl.
  - exists [], []. rewrite orb_false_r in Hl. done.
  - apply orb_true_iff in Hl as [Hk|Hl].
    + by exists [], (c :: s).
    + apply andb_true_iff in Hl as [Hc Hl].
      destruct (IH Hl) as (x & r & -> & Hx & Hk).
      exists (c :: x), r. split_and!; [done| |done].
      constructor; [|done]. by apply negb_true_iff.
Qed.

Lemma imageRefAt_spec s :
  imageRefAt s = true ↔
  ∃ alt url post,
    s = js "![" ++ alt ++ js "](" ++ url ++ js ")" ++ post
    ∧ Forall (fun c => isLineTerminator c = false) alt
    ∧ Forall (fun c => isLineTerminator c = false) url.
Proof.
  unfold imageRefAt, startsWith. split.
  - destruct (stripPrefix (js "![") s) as [r|] eqn:Hp; [|done].
    apply stripPrefix_Some in Hp as ->. intros Hl.
    apply lazyDots_elim in Hl as (alt & r1 & -> & Halt & Hk).
    destruct (stripPrefix (js "](") r1) as [r2|] eqn:Hp; [|done].
    apply stripPrefix_Some in Hp as ->.
    apply lazyDots_elim in Hk as (url & r3 & -> & Hurl & Hk).
    destruct (stripPrefix (js ")") r3) as [post|] eqn:Hp; [|done].
    apply stripPrefix_Some in Hp as ->.
    by exists alt, url, post.
  - intros (alt & url & post & -> & Halt & Hurl).
    rewrite stripPrefix_app. apply lazyDots_intro; [done|].
    rewrite stripPrefix_app. apply lazyDots_intro; [done|].
    by rewrite stripPrefix_app.
Qed.

Lemma mdHasImageRefs_spec md :
  mdHasImageRefs md = true ↔ ContainsImageRef md.
Proof.
  unfold ContainsImageRef. induction md as [|c md IH].
  - cbn [mdHasImageRefs]. rewrite orb_false_r, imageRefAt_spec. split.
    + intros (alt & url & post & ? & ? & ?). by exists [], alt, url, post.
    + intros (pre & alt & url & post & Hmd & _). by destruct pre.
  - cbn [mdHasImageRefs]. rewrite orb_true_iff, IH, imageRefAt_spec. split.
    + intros [(alt & url & post & ? & ? & ?)|(pre & alt & url & post & -> & ? & ?)].
      * by exists [], alt, url, post.
      * by exists (c :: pre), alt, url, post.
    + intros (pre & alt & url & post & Hmd & Halt & Hurl).
      destruct pre as [|c' pre].
      * left. by exists alt, url, post.
      * right. injection Hmd as -> ->. by exists pre, alt, url, post.
Qed.



Lemma detectFrom_nil `{Host} index lines :
  Forall (fun line => h2Match line = None ∧ h3Match line = None) lines →
  detectFrom index lines = [].
Proof.
  intros Hl. revert index. induction Hl as [|line lines [H2 H3] _ IH]; intros index.
  - done.
  - simpl. unfold headingOf. by rewrite H2, H3.
Qed.

(** C10. When no line of the Markdown matches [## N.] or [### N-M] /
    [### N.M], the Auto-Linker returns its input, whatever the uploaded
    assets: no appendix is added. *)
Theorem autolinker_no_heading `{Host} (markdownContent : jsstring)
    (screenshots : list ImageFile) :
  Forall (fun line => h2Match line = None ∧ h3Match line = None)
    (split 10 markdownContent) →
  processedMarkdown markdownContent screenshots = markdownContent.
Proof.
  intros Hl. unfold processedMarkdown, detectSections.
  rewrite (detectFrom_nil _ _ Hl).
  by destruct (_ || _ || _).
Qed.

Lemma autolinker_no_heading_witness :
  processedMarkdown (js "# Title" ++ 10 :: js "## Intro" ++ 10 :: js "text")
    [mkImage (js "03_extra.png") (js "data:A")]
  = js "# Title" ++ 10 :: js "## Intro" ++ 10 :: js "text".
Proof.
  apply autolinker_no_heading. vm_compute. repeat constructor.
Defined.

(** ** Trimming *)

Lemma dropWhile_nil p s : dropWhile p s = [] ↔ forallb p s = true.
Proof.
  induction s as [|c s IH]; simpl; [done|].
  destruct (p c); simpl; [done|]. split; done.
Qed.

Lemma truthy_nil s : truthy s = false ↔ s = [].
Proof. by destruct s. Qed.

Lemma forallb_dropWhile p s : forallb p (dropWhile p s) = forallb p s.
Proof.
  induction s as [|c s IH]; simpl; [done|].
  destruct (p c) eqn:Hc; simpl; [done|]. by rewrite Hc.
Qed.

Lemma forallb_rev p (s : jsstring) : forallb p (rev s) = forallb p s.
Proof.
  induction s as [|c s IH]; simpl; [done|].
  rewrite forallb_app, IH. simpl. rewrite andb_true_r. apply andb_comm.
Qed.

(** [s.trim()] is falsy exactly when [s] is all white space. *)
Lemma truthy_trim s : truthy (trim s) = negb (forallb isWhiteSpace s).
Proof.
  unfold trim.
  destruct (forallb isWhiteSpace s) eqn:Hs; simpl.
  - apply dropWhile_nil in Hs. by rewrite Hs.
  - destruct (rev (dropWhile _ (rev (dropWhile _ s)))) as [|c r] eqn:Hr; [|done].
    apply (f_equal (@rev N)) in Hr. rewrite rev_involutive in Hr. simpl in Hr.
    apply dropWhile_nil in Hr. by rewrite forallb_rev, forallb_dropWhile, Hs in Hr.
Qed.

Lemma truthy_trim_app a b :
  truthy (trim (a ++ b)) = truthy (trim a) || truthy (trim b).
Proof. rewrite !truthy_trim, forallb_app. apply negb_andb. Qed.

Lemma truthy_trim_lt r : truthy (trim (ch "<" :: r)) = true.
Proof. by rewrite truthy_trim. Qed.

(** ** Pagination: nothing is lost *)

Lemma flattenNode_solid el node :
  WellFormedDom el → flattenNode el = Some node → Solid (html node).
Proof.
  unfold WellFormedDom, flattenNode, Solid. intros Hwf.
  destruct (tagName el) as [t|], (outerHTML el) as [h|]; try done.
  - destruct Hwf as [r ->]. case_bool_decide; [done|]. simpl.
    intros [= <-]. simpl. apply truthy_trim_lt.
  - rewrite bool_decide_eq_false_2 by done. simpl.
    destruct (textContent el) as [t|]; simpl; [|done].
    destruct (truthy (trim t)) eqn:Ht; [|done]. by intros [= <-].
Qed.

Lemma flattenNodes_solid childNodes :
  Forall WellFormedDom childNodes →
  Forall (fun node => Solid (html node)) (flattenNodes childNodes).
Proof.
  unfold flattenNodes. induction 1 as [|el els Hel _ IH]; simpl; [done|].
  destruct (flattenNode el) as [node|] eqn:Hn; [|done].
  constructor; [|done]. by eapply flattenNode_solid.
Qed.

Lemma concat_snoc {A} (ls : list (list A)) l : concat (ls ++ [l]) = concat ls ++ l.
Proof. by rewrite concat_app; simpl; rewrite app_nil_r. Qed.

Lemma placeNode_content st node :
  content (placeNode st node) = content st ++ html node.
Proof.
  unfold placeNode, content.
  destruct (bool_decide _ && truthy _); simpl.
  - by rewrite concat_snoc.
  - destruct (_ && truthy _); simpl; [|by rewrite app_assoc].
    destruct (negb _); simpl; [|by rewrite app_assoc].
    by rewrite concat_snoc.
Qed.

Lemma placeNode_solid st node :
  Solid (html node) → Solid (currentSection (placeNode st node)).
Proof.
  unfold placeNode, Solid. intros Hn.
  destruct (bool_decide _ && truthy _); simpl; [done|].
  rewrite truthy_trim_app, Hn. apply orb_true_r.
Qed.

Lemma fold_placeNode_content nodes st :
  content (fold_left placeNode nodes st) = content st ++ concat (html <$> nodes).
Proof.
  revert st. induction nodes as [|node nodes IH]; intros st; simpl.
  - by rewrite app_nil_r.
  - by rewrite IH, placeNode_content, <- app_assoc.
Qed.

Lemma fold_placeNode_solid nodes st :
  Forall (fun node => Solid (html node)) nodes →
  currentSection st = [] ∨ Solid (currentSection st) →
  let st' := fold_left placeNode nodes st in
  currentSection st' = [] ∨ Solid (currentSection st').
Proof.
  intros Hn. revert st. induction Hn as [|node nodes Hnode _ IH]; intros st Hst; simpl.
  - done.
  - apply IH. right. by apply placeNode_solid.
Qed.

Lemma finish_content st :
  currentSection st = [] ∨ Solid (currentSection st) →
  concat (finish st) = content st.
Proof.
  unfold finish, content, Solid. intros [Hst|Hst]; rewrite Hst.
  - simpl. by rewrite app_nil_r.
  - by rewrite concat_snoc.
Qed.

Lemma paginate_concat nodes :
  Forall (fun node => Solid (html node)) nodes →
  concat (paginate nodes) = concat (html <$> nodes).
Proof.
  intros Hn. unfold paginate.
  rewrite finish_content, fold_placeNode_content; [done|].
  apply fold_placeNode_solid; [done|]. by left.
Qed.

(** The heading-split paginator of [page.tsx]. *)

Lemma placeChild_spec st el :
  WellFormedDom el →
  st.2 = [] ∨ Solid st.2 →
  let st' := PageTsx.placeChild st el in
  concat st'.1 ++ st'.2 = (concat st.1 ++ st.2) ++ nodeMarkup el
  ∧ (st'.2 = [] ∨ Solid st'.2).
Proof.
  destruct st as [secs cur]. unfold WellFormedDom, nodeMarkup, flattenNode,
    PageTsx.placeChild, Solid. simpl. intros Hwf Hcur.
  destruct (tagName el) as [t|], (outerHTML el) as [h|]; try done.
  - destruct Hwf as [r ->]. simpl.
    case_bool_decide as Hh2.
    + simplify_eq. rewrite bool_decide_eq_false_2 by done. simpl.
      destruct Hcur as [->|Hcur].
      * simpl. rewrite app_nil_r. split; [done|]. right. apply truthy_trim_lt.
      * rewrite Hcur. simpl. rewrite concat_snoc. split; [done|]. right.
        apply truthy_trim_lt.
    + case_bool_decide as Hhr; simpl.
      * by rewrite app_nil_r.
      * split; [by rewrite app_assoc|]. right.
        rewrite truthy_trim_app, truthy_trim_lt. apply orb_true_r.
  - rewrite !bool_decide_eq_false_2 by done. simpl.
    destruct (textContent el) as [t|]; simpl; [|by rewrite app_nil_r].
    destruct (truthy (trim t)) eqn:Ht; simpl; [|by rewrite app_nil_r].
    split; [by rewrite app_assoc|]. right.
    rewrite truthy_trim_app, Ht. apply orb_true_r.
Qed.

Lemma concat_flatten childNodes :
  concat (html <$> flattenNodes childNodes) = concat (nodeMarkup <$> childNodes).
Proof.
  unfold flattenNodes.
  induction childNodes as [|el els IH]; [done|].
  rewrite fmap_cons. cbn [concat]. rewrite <- IH. unfold nodeMarkup.
  cbn [omap list_omap]. by destruct (flattenNode el).
Qed.

Lemma fold_placeChild_spec childNodes st :
  Forall WellFormedDom childNodes →
  st.2 = [] ∨ Solid st.2 →
  let st' := fold_left PageTsx.placeChild childNodes st in
  concat st'.1 ++ st'.2 = (concat st.1 ++ st.2) ++ concat (nodeMarkup <$> childNodes)
  ∧ (st'.2 = [] ∨ Solid st'.2).
Proof.
  intros Hwf. revert st.
  induction Hwf as [|el els Hel _ IH]; intros st Hst; simpl.
  - by rewrite app_nil_r.
  - destruct (placeChild_spec st el Hel Hst) as [Hc Hs].
    destruct (IH _ Hs) as [Hc' Hs']. split; [|done].
    by rewrite Hc', Hc, <- app_assoc.
Qed.

Lemma simple_paginate_concat childNodes :
  Forall WellFormedDom childNodes →
  concat (PageTsx.paginate childNodes) = concat (html <$> flattenNodes childNodes).
Proof.
  intros Hwf. unfold PageTsx.paginate.
  destruct (fold_placeChild_spec childNodes ([], []) Hwf) as [Hc Hs]; [by left|].
  destruct (fold_left _ _ _) as [secs cur]. simpl in *.
  rewrite concat_flatten, <- Hc.
  destruct Hs as [->|Hs].
  - simpl. by rewrite app_nil_r.
  - unfold Solid in Hs. by rewrite Hs, concat_snoc.
Qed.

(** ** Pagination: the layout behind the pages *)

Lemma markup_singleton node : markup [node] = html node.
Proof. unfold markup. simpl. apply app_nil_r. Qed.

Lemma markup_snoc page node : markup (page ++ [node]) = markup page ++ html node.
Proof.
  unfold markup. rewrite fmap_app.
  change (html <$> [node]) with [html node]. apply concat_snoc.
Qed.

Lemma layoutNode_erase g node :
  erase (layoutNode g node) = placeNode (erase g) node.
Proof.
  unfold layoutNode, placeNode, erase. simpl.
  destruct (bool_decide _ && truthy _); simpl.
  - by rewrite fmap_app, markup_singleton.
  - destruct (_ && truthy _); simpl; [|by rewrite markup_snoc].
    destruct (negb _); simpl; [|by rewrite markup_snoc].
    by rewrite fmap_app, markup_singleton.
Qed.

Lemma fold_layoutNode_erase nodes g :
  erase (fold_left layoutNode nodes g) = fold_left placeNode nodes (erase g).
Proof.
  revert g. induction nodes as [|node nodes IH]; intros g; simpl; [done|].
  by rewrite IH, layoutNode_erase.
Qed.

Lemma layoutFinish_erase g : markup <$> layoutFinish g = finish (erase g).
Proof.
  unfold layoutFinish, finish, erase. simpl.
  destruct (truthy _); [|done]. by rewrite fmap_app.
Qed.

Lemma layout_erase nodes : markup <$> layout nodes = paginate nodes.
Proof.
  unfold layout, paginate. by rewrite layoutFinish_erase, fold_layoutNode_erase.
Qed.

Lemma flushes_or_keeps g node : flushes g node ∨ keeps g node.
Proof.
  unfold flushes, keeps, layoutNode.
  destruct (bool_decide _ && truthy _); simpl; [by left|].
  destruct (_ && truthy _); simpl; [|by right].
  destruct (negb _); simpl; [by left|by right].
Qed.

Lemma flushes_not_keeps g node : flushes g node → ¬ keeps g node.
Proof.
  intros [Hf _] [Hk _]. rewrite Hk in Hf.
  apply (f_equal length) in Hf. rewrite length_app in Hf. simpl in Hf. lia.
Qed.

Lemma layoutNode_nodes g node :
  concat (donePages (layoutNode g node)) ++ openPage (layoutNode g node)
  = (concat (donePages g) ++ openPage g) ++ [node].
Proof.
  destruct (flushes_or_keeps g node) as [[-> ->]|[-> ->]].
  - by rewrite concat_snoc.
  - by rewrite app_assoc.
Qed.

Lemma fold_layoutNode_nodes nodes g :
  let g' := fold_left layoutNode nodes g in
  concat (donePages g') ++ openPage g' = (concat (donePages g) ++ openPage g) ++ nodes.
Proof.
  revert g. induction nodes as [|node nodes IH]; intros g; simpl.
  - by rewrite app_nil_r.
  - rewrite IH, layoutNode_nodes. by rewrite <- app_assoc.
Qed.

Lemma layout_concat nodes :
  Forall (fun node => Solid (html node)) nodes →
  concat (layout nodes) = nodes.
Proof.
  intros Hn. unfold layout.
  pose proof (fold_layoutNode_nodes nodes (mkLayout [] [] 0)) as Hc.
  pose proof (fold_placeNode_solid nodes (mkPag [] [] 0) Hn (or_introl eq_refl)) as Hs.
  change (mkPag [] [] 0) with (erase (mkLayout [] [] 0)) in Hs.
  rewrite <- fold_layoutNode_erase in Hs.
  destruct (fold_left layoutNode nodes _) as [done' open' h']. simpl in *.
  unfold layoutFinish, Solid in *. simpl.
  destruct (truthy (trim (markup open'))) eqn:Ht.
  - by rewrite concat_snoc.
  - destruct Hs as [Hs|Hs]; [|done].
    assert (Forall (fun node => Solid (html node)) open') as Hopen.
    { apply (Forall_app _ (concat done') open'). by rewrite Hc. }
    destruct Hopen as [|node open' Hnode _]; [by rewrite app_nil_r in Hc|].
    unfold markup in Ht. simpl in Ht. rewrite truthy_trim_app in Ht.
    unfold Solid in Hnode. by rewrite Hnode in Ht.
Qed.

(** C3. The pages put back together are the markup of the nodes, in
    order: the flattened children of a DOM tree are partitioned into
    pages (both by the height-aware paginator and by the heading-split
    one), nothing dropped, repeated or moved. *)
Theorem pages_reassemble (childNodes : list DomNode) :
  Forall WellFormedDom childNodes →
  let nodes := flattenNodes childNodes in
  concat (paginate nodes) = concat (html <$> nodes)
  ∧ paginate nodes = markup <$> layout nodes
  ∧ concat (layout nodes) = nodes
  ∧ concat (PageTsx.paginate childNodes) = concat (html <$> nodes).
Proof.
  intros Hwf nodes. pose proof (flattenNodes_solid _ Hwf) as Hs.
  split_and!.
  - by apply paginate_concat.
  - by rewrite layout_erase.
  - by apply layout_concat.
  - by apply simple_paginate_concat.
Qed.

(** ** Pagination: headings *)

Lemma dropWhile_false p c r : p c = false → dropWhile p (c :: r) = c :: r.
Proof. intros Hc. simpl. by rewrite Hc. Qed.

Lemma trim_solid_ends c r e :
  isWhiteSpace c = false → isWhiteSpace e = false →
  trim (c :: r ++ [e]) = c :: r ++ [e].
Proof.
  intros Hc He. unfold trim. rewrite dropWhile_false by done.
  change (c :: r ++ [e]) with ((c :: r) ++ [e]).
  rewrite rev_app_distr.
  change (rev [e] ++ rev (c :: r)) with (e :: rev (c :: r)).
  rewrite dropWhile_false by done.
  change (rev (e :: rev (c :: r))) with (rev (rev (c :: r)) ++ [e]).
  by rewrite rev_involutive.
Qed.

Lemma dropWhile_until_gt a rest :
  ∃ x, dropWhile (fun c => negb (c =? ch ">")) (a ++ ch ">" :: rest)
       = ch ">" :: x ++ rest.
Proof.
  induction a as [|c a [x IH]].
  - by exists [].
  - rewrite <- app_comm_cons. cbn [dropWhile].
    destruct (N.eqb_spec c (ch ">")) as [->|_]; cbn [negb].
    + exists (a ++ [ch ">"]). by rewrite <- app_assoc.
    + by exists x.
Qed.

Lemma endsWithHeadingClose_app x d :
  inRange 49 52 d = true →
  endsWithHeadingClose (x ++ [ch "<"; ch "/"; ch "h"; d; ch ">"]) = true.
Proof.
  intros Hd. unfold endsWithHeadingClose. rewrite rev_app_distr. simpl.
  by rewrite Hd.
Qed.

Lemma HeadingMarkup_isOnlyHeading s :
  HeadingMarkup s → isOnlyHeading (trim s) = true.
Proof.
  intros (d & attrs & inner & Hd & ->).
  set (close := [ch "<"; ch "/"; ch "h"; d; ch ">"]).
  assert (trim ([ch "<"; ch "h"; d] ++ attrs ++ ch ">" :: inner ++ close)
          = [ch "<"; ch "h"; d] ++ attrs ++ ch ">" :: inner ++ close) as ->.
  { replace ([ch "<"; ch "h"; d] ++ attrs ++ ch ">" :: inner ++ close)
      with (ch "<" :: ([ch "h"; d] ++ attrs ++ ch ">" :: inner
                         ++ [ch "<"; ch "/"; ch "h"; d]) ++ [ch ">"]).
    - by apply trim_solid_ends.
    - unfold close. simpl. f_equal. f_equal. f_equal.
      rewrite <- !app_assoc. simpl. f_equal. f_equal.
      by rewrite <- !app_assoc. }
  cbn [app isOnlyHeading]. rewrite Hd.
  destruct (dropWhile_until_gt attrs (inner ++ close)) as [x ->].
  rewrite app_assoc. simpl. by apply endsWithHeadingClose_app.
Qed.

(** The test accepts more than lone headings: any page that opens with a
    heading and closes with one. *)
Lemma isOnlyHeading_accepts_more :
  isOnlyHeading (trim (js "<h3>a</h3><p>x</p><h3>b</h3>")) = true.
Proof. reflexivity. Qed.

Lemma single_heading_isOnlyHeading n :
  HeadingWF n → isHeadingTag (tag n) = true →
  isOnlyHeading (trim (markup [n])) = true.
Proof.
  intros Hwf Ht. rewrite markup_singleton.
  by apply HeadingMarkup_isOnlyHeading, Hwf.
Qed.

Lemma pageHeight_snoc page node :
  pageHeight (page ++ [node]) = pageHeight page + estimateHeight node.
Proof. induction page as [|m page IH]; simpl; [lia|]. rewrite IH. lia. Qed.

Lemma H2First_snoc page node : H2First page → H2First (page ++ [node]).
Proof. intros (m & rest & -> & Hm). by exists m, (rest ++ [node]). Qed.

Lemma flushes_cause g node :
  flushes g node →
  Solid (markup (openPage g))
  ∧ (tag node = js "H2"
     ∨ (MAX_PAGE_HEIGHT < openHeight g + estimateHeight node
        ∧ isOnlyHeading (trim (markup (openPage g))) = false)).
Proof.
  intros Hf. pose proof (flushes_not_keeps _ _ Hf) as Hnk.
  unfold keeps, flushes, layoutNode, Solid in *.
  destruct (bool_decide (tag node = js "H2")) eqn:Hh2; simpl in *.
  - apply bool_decide_eq_true in Hh2.
    destruct (truthy (trim (markup (openPage g)))); simpl in *; [by auto|].
    rewrite andb_false_r in Hnk. simpl in Hnk. by destruct Hnk.
  - destruct (MAX_PAGE_HEIGHT <? _) eqn:Hlt; simpl in *; [|by destruct Hnk].
    destruct (truthy (trim (markup (openPage g)))); simpl in *; [|by destruct Hnk].
    destruct (isOnlyHeading _); simpl in *; [by destruct Hnk|].
    apply N.ltb_lt in Hlt. auto.
Qed.

Lemma layoutNode_height g node :
  openHeight g = pageHeight (openPage g) →
  openHeight (layoutNode g node) = pageHeight (openPage (layoutNode g node)).
Proof.
  intros Hh. unfold layoutNode.
  destruct (bool_decide _ && truthy _); simpl; [lia|].
  destruct (_ && truthy _); simpl; [|rewrite pageHeight_snoc; lia].
  destruct (negb _); simpl; [lia|rewrite pageHeight_snoc; lia].
Qed.

Lemma layoutNode_inv g node :
  HeadingWF node → LayoutInv g → LayoutInv (layoutNode g node).
Proof.
  intros Hnode [Hh Hwf Hlone]. split.
  - by apply layoutNode_height.
  - destruct (flushes_or_keeps g node) as [[_ ->]|[_ ->]].
    + by constructor.
    + apply Forall_app. split; [done|by constructor].
  - destruct (flushes_or_keeps g node) as [Hf|[Hd Ho]].
    + destruct (flushes_cause _ _ Hf) as [_ Hcause]. destruct Hf as [Hd Ho].
      rewrite Hd, Ho. intros i n Hi Hn.
      destruct (decide (i < length (donePages g))%nat) as [Hlt|Hge].
      * rewrite lookup_app_l in Hi by done.
        destruct (Hlone i n Hi Hn) as (p & Hp & Hp2). exists p. split; [|done].
        by apply lookup_app_l_Some.
      * rewrite lookup_app_r in Hi by lia.
        destruct (i - length (donePages g))%nat as [|k] eqn:Hk; [|by destruct k].
        simpl in Hi. injection Hi as Hopen.
        assert (i = length (donePages g)) as -> by lia.
        exists [node]. split.
        -- rewrite <- app_assoc. rewrite lookup_app_r by lia.
           replace (S (length (donePages g)) - length (donePages g))%nat with 1%nat by lia.
           done.
        -- destruct Hcause as [Hh2|[_ Hnot]]; [by exists node, []|].
           rewrite Hopen in Hwf, Hnot. apply Forall_inv in Hwf.
           by rewrite (single_heading_isOnlyHeading n Hwf Hn) in Hnot.
    + rewrite Hd, Ho. intros i n Hi Hn.
      destruct (Hlone i n Hi Hn) as (p & Hp & Hp2).
      apply lookup_lt_Some in Hi as Hlt.
      destruct (decide (S i < length (donePages g))%nat).
      * rewrite lookup_app_l in Hp by done. exists p. by rewrite lookup_app_l.
      * assert (S i = length (donePages g)) as Heq by lia.
        rewrite lookup_app_r in Hp by lia. rewrite lookup_app_r by lia.
        rewrite Heq, Nat.sub_diag in *. simpl in *. injection Hp as <-.
        eexists. split; [done|]. by apply H2First_snoc.
Qed.

Lemma fold_layoutNode_inv nodes g :
  Forall HeadingWF nodes → LayoutInv g → LayoutInv (fold_left layoutNode nodes g).
Proof.
  intros Hn. revert g. induction Hn as [|node nodes Hnode _ IH]; intros g Hg; simpl.
  - done.
  - by apply IH, layoutNode_inv.
Qed.

Lemma LayoutInv_init : LayoutInv (mkLayout [] [] 0).
Proof. split; simpl; [done|done|]. intros i n Hi. by rewrite lookup_nil in Hi. Qed.

(** C2, as stated, fails for the break forced by a second-level heading:
    a title followed by a section heading is left alone on the first
    page. *)
Lemma heading_stranded_by_H2 :
  Forall HeadingWF [titleNode; sectionNode; textNode]
  ∧ paginate [titleNode; sectionNode; textNode]
    = [js "<h1>Manual</h1>"; js "<h2 id=s1>1. Intro</h2><p>text</p>"]
  ∧ layout [titleNode; sectionNode; textNode] !! 0%nat = Some [titleNode]
  ∧ isHeadingTag (tag titleNode) = true
  ∧ (1 < length (layout [titleNode; sectionNode; textNode]))%nat.
Proof.
  split.
  - repeat constructor; intros Ht; try discriminate Ht.
    + exists 49, [], (js "Manual"). by split.
    + exists 50, (js " id=s1"), (js "1. Intro"). by split.
  - vm_compute. split_and!; [done|done|done|lia].
Qed.

(** C2, amended. A page whose whole body is one heading element is either
    the last page or is followed by a page that a second-level heading
    opens: the overflow break never leaves a heading alone, only the
    break forced by a second-level heading does. *)
Theorem lone_heading_only_before_H2 (nodes : list PageNode) :
  Forall HeadingWF nodes →
  paginate nodes = markup <$> layout nodes
  ∧ ∀ i n, layout nodes !! i = Some [n] → isHeadingTag (tag n) = true →
      S i = length (layout nodes)
      ∨ ∃ m rest, layout nodes !! S i = Some (m :: rest) ∧ tag m = js "H2".
Proof.
  intros Hwf. split; [by rewrite layout_erase|].
  pose proof (fold_layoutNode_inv nodes _ Hwf LayoutInv_init) as [_ _ Hlone].
  unfold layout, layoutFinish.
  destruct (fold_left layoutNode nodes _) as [done' open' h']. simpl in *.
  intros i n Hi Hn.
  assert (∀ pages, (pages = done' ∨ pages = done' ++ [open']) →
            pages !! i = Some [n] →
            S i = length pages
            ∨ ∃ m rest, pages !! S i = Some (m :: rest) ∧ tag m = js "H2") as Hgen.
  { intros pages Hpages Hpi.
    destruct (decide (S i < length pages)%nat) as [Hlt|Hge];
      [right|left; apply lookup_lt_Some in Hpi; lia].
    assert (done' !! i = Some [n]) as Hdi.
    { destruct Hpages as [->| ->]; [done|].
      rewrite length_app in Hlt. simpl in Hlt. by rewrite lookup_app_l in Hpi by lia. }
    destruct (Hlone i n Hdi Hn) as (p & Hp & m & rest & -> & Hm).
    exists m, rest. split; [|done].
    destruct Hpages as [->| ->]; [|done]. by rewrite lookup_app_l in Hp. }
  destruct (truthy (trim (markup open'))); apply Hgen; auto.
Qed.

Lemma fold_layoutNode_app pre node g :
  fold_left layoutNode (pre ++ [node]) g = layoutNode (fold_left layoutNode pre g) node.
Proof. by rewrite fold_left_app. Qed.

Lemma placeNode_sections st node :
  sections (placeNode st node) = sections st
  ∨ (sections (placeNode st node) = sections st ++ [currentSection st]
     ∧ Solid (currentSection st)).
Proof.
  unfold placeNode, Solid.
  destruct (truthy (trim (currentSection st))); [|rewrite !andb_false_r; by left].
  destruct (bool_decide _); simpl; [by right|].
  destruct (MAX_PAGE_HEIGHT <? _); simpl; [|by left].
  destruct (isOnlyHeading _); simpl; [by left|by right].
Qed.

Lemma fold_placeNode_solid_sections nodes st :
  Forall Solid (sections st) →
  Forall Solid (sections (fold_left placeNode nodes st)).
Proof.
  revert st. induction nodes as [|node nodes IH]; intros st Hst; simpl; [done|].
  apply IH. destruct (placeNode_sections st node) as [->|[-> Hs]]; [done|].
  apply Forall_app. split; [done|by constructor].
Qed.

Lemma paginate_solid nodes : Forall Solid (paginate nodes).
Proof.
  unfold paginate, finish.
  pose proof (fold_placeNode_solid_sections nodes (mkPag [] [] 0) (Forall_nil_2 _)).
  destruct (truthy (trim (currentSection _))) eqn:Ht; [|done].
  apply Forall_app. split; [done|by constructor].
Qed.

(** C6, as stated, fails on an empty page: a node higher than the budget
    arrives first, the budget is exceeded and the (empty) page is no
    heading, yet nothing is flushed. *)
Lemma no_flush_of_empty_page :
  let items := concat (replicate 41 (js "<li>x</li>")) in
  let list := mkNode (js "UL") (js "<ul>" ++ items ++ js "</ul>") false in
  let start := mkLayout [] [] 0 in
  tag list ≠ js "H2"
  ∧ MAX_PAGE_HEIGHT < pageHeight (openPage start) + estimateHeight list
  ∧ isOnlyHeading (trim (markup (openPage start))) = false
  ∧ ¬ flushes start list
  ∧ paginate [list] = [html list].
Proof.
  split; [by vm_compute|]. split; [by vm_compute|]. split; [by vm_compute|].
  split; [|by vm_compute].
  intros [Hf _]. vm_compute in Hf. done.
Qed.

(** C6, amended. Before a node is placed: a second-level heading closes
    the open page exactly when that page is not blank; any other node
    closes it only if the accumulated height plus its own exceeds the
    budget, the page is not blank and the page is not a lone heading, and
    does close it whenever the budget is exceeded, the page is not blank
    and its markup is not of the form [<hN ...>...</hN>]. A closed page is
    followed by a page the node opens; otherwise the node joins the open
    page. No page is blank. *)
Theorem page_breaks (nodes pre post : list PageNode) (node : PageNode) :
  Forall HeadingWF nodes →
  nodes = pre ++ node :: post →
  let g := fold_left layoutNode pre (mkLayout [] [] 0) in
  let total := pageHeight (openPage g) + estimateHeight node in
  (tag node = js "H2" → (flushes g node ↔ Solid (markup (openPage g))))
  ∧ (tag node ≠ js "H2" →
       (flushes g node →
          MAX_PAGE_HEIGHT < total ∧ Solid (markup (openPage g))
          ∧ ¬ ∃ n, openPage g = [n] ∧ isHeadingTag (tag n) = true)
       ∧ (MAX_PAGE_HEIGHT < total → Solid (markup (openPage g)) →
          isOnlyHeading (trim (markup (openPage g))) = false → flushes g node))
  ∧ (flushes g node ∨ keeps g node)
  ∧ ¬ (flushes g node ∧ keeps g node)
  ∧ fold_left layoutNode (pre ++ [node]) (mkLayout [] [] 0) = layoutNode g node
  ∧ paginate nodes = markup <$> layout nodes
  ∧ Forall Solid (paginate nodes).
Proof.
  intros Hwf -> g total.
  apply Forall_app in Hwf as [Hpre _].
  pose proof (fold_layoutNode_inv pre _ Hpre LayoutInv_init) as [Hh Hopen _].
  fold g in Hh, Hopen. unfold total. rewrite <- Hh.
  split_and!.
  - intros Hh2. split; [by intros [? _]%flushes_cause|].
    unfold Solid, flushes, layoutNode. intros ->.
    by rewrite bool_decide_eq_true_2.
  - intros Hh2. split.
    + intros (Hsolid & [?|[Hlt Hnot]])%flushes_cause; [done|].
      split_and!; [done|done|]. intros (n & Hn & Hhead).
      rewrite Hn in Hopen, Hnot. apply Forall_inv in Hopen.
      by rewrite (single_heading_isOnlyHeading n Hopen Hhead) in Hnot.
    + unfold Solid, flushes, layoutNode. intros Hlt%N.ltb_lt -> ->.
      by rewrite bool_decide_eq_false_2, Hlt.
  - apply flushes_or_keeps.
  - intros [Hf Hk]. by apply (flushes_not_keeps g node).
  - apply fold_layoutNode_app.
  - by rewrite layout_erase.
  - apply paginate_solid.
Qed.

(** ** The Auto-Linker: bucketing *)

Section Bucketing.
Context `{Host}.

Lemma parseInt_stripZeros digits :
  parseInt (stripZeros digits) = parseInt digits.
Proof.
  induction digits as [|c r IH]; [done|].
  cbn [stripZeros]. destruct r as [|c' r']; [done|].
  destruct (N.eqb_spec c 48) as [->|_]; [|done].
  rewrite IH. reflexivity.
Qed.

Lemma findKey_spec sections k :
  findKey sections k = true ↔ recorded sections k.
Proof.
  unfold findKey, recorded. rewrite existsb_exists, list_elem_of_fmap.
  split.
  - intros (s & Hs & Hk). apply bool_decide_eq_true in Hk.
    exists s. split; [done|]. by apply list_elem_of_In.
  - intros (s & -> & Hs). exists s. split; [by apply list_elem_of_In|].
    by apply bool_decide_eq_true.
Qed.

Lemma findKey_decide sections k :
  findKey sections k = bool_decide (recorded sections k).
Proof.
  destruct (findKey sections k) eqn:Hf; symmetry.
  - by apply bool_decide_eq_true, findKey_spec.
  - apply bool_decide_eq_false. rewrite <- findKey_spec. congruence.
Qed.

Lemma classify_spec sections m u img :
  classify sections (m, u) img =
    match bucketKey sections (name img) with
    | Some k => (pushTo m k img, u)
    | None => (m, u ++ [img])
    end.
Proof.
  unfold classify, bucketKey, majorBucket, exactKeyOf, majorOf.
  destruct (screenshotMatch (name img)) as [[g1 [g2|]]|]; simpl; [| |done].
  - rewrite !findKey_decide.
    destruct (decide (recorded sections _)) as [He|He].
    + by rewrite bool_decide_eq_true_2.
    + rewrite bool_decide_eq_false_2 by done.
      destruct (decide (recorded sections _)) as [Hm|Hm].
      * by rewrite bool_decide_eq_true_2.
      * by rewrite bool_decide_eq_false_2.
  - rewrite findKey_decide.
    destruct (decide (recorded sections _)) as [Hm|Hm].
    + by rewrite bool_decide_eq_true_2.
    + by rewrite bool_decide_eq_false_2.
Qed.

Lemma bucketKey_recorded sections nm k :
  bucketKey sections nm = Some k → recorded sections k.
Proof.
  unfold bucketKey, majorBucket.
  destruct (exactKeyOf nm) as [ek|].
  - destruct (decide (recorded sections ek)); [by intros [= <-]|].
    destruct (majorOf nm) as [mj|]; [|done].
    destruct (decide (recorded sections mj)); [by intros [= <-]|done].
  - destruct (majorOf nm) as [mj|]; [|done].
    destruct (decide (recorded sections mj)); [by intros [= <-]|done].
Qed.

Lemma fold_classify sections imgs m u :
  let st := fold_left (classify sections) imgs (m, u) in
  (∀ k, default [] (st.1 !! k)
        = default [] (m !! k) ++ filter (wants sections (Some k)) imgs)
  ∧ st.2 = u ++ filter (wants sections None) imgs.
Proof.
  revert m u. induction imgs as [|img imgs IH]; intros m u st; subst st.
  - split; [intros k|]; simpl; by rewrite app_nil_r.
  - cbn [fold_left]. rewrite classify_spec.
    destruct (bucketKey sections (name img)) as [k0|] eqn:Hk.
    + destruct (IH (pushTo m k0 img) u) as [IH1 IH2]. split.
      * intros k. rewrite IH1. unfold pushTo.
        destruct (decide (k0 = k)) as [->|Hne].
        -- rewrite lookup_insert_eq, filter_cons_True by done. simpl.
           by rewrite <- app_assoc.
        -- rewrite lookup_insert_ne by done.
           by rewrite filter_cons_False by (unfold wants; congruence).
      * rewrite IH2. by rewrite filter_cons_False by (unfold wants; congruence).
    + destruct (IH m (u ++ [img])) as [IH1 IH2]. split.
      * intros k. rewrite IH1.
        by rewrite filter_cons_False by (unfold wants; congruence).
      * rewrite IH2, filter_cons_True by done. by rewrite <- app_assoc.
Qed.

Lemma groupScreenshots_spec sections imgs :
  (∀ k, default [] ((groupScreenshots sections imgs).1 !! k)
        = filter (wants sections (Some k)) imgs)
  ∧ (groupScreenshots sections imgs).2 = filter (wants sections None) imgs.
Proof.
  destruct (fold_classify sections imgs ∅ []) as [H1 H2]. split; [|done].
  intros k. by rewrite H1, lookup_empty.
Qed.

(** C5. Every asset goes to the bucket its file name asks for: under
    the exact [major.minor] key when the name has both numbers and that
    key is recorded; otherwise under the major key when that is
    recorded; otherwise, and when the name has no numeric prefix, among
    the unmatched. Each bucket and the unmatched list keep the order of
    the assets. *)
Theorem assets_bucketed_by_prefix (sections : list Heading)
    (sortedScreenshots : list ImageFile) :
  let grouped := groupScreenshots sections sortedScreenshots in
  let bucket k := default [] (grouped.1 !! k) in
  (∀ k, bucket k = filter (wants sections (Some k)) sortedScreenshots)
  ∧ grouped.2 = filter (wants sections None) sortedScreenshots
  ∧ (∀ img g1 g2,
       img ∈ sortedScreenshots →
       screenshotMatch (name img) = Some (g1, g2) →
       let major := numberToString (parseInt g1) in
       let exactKey :=
         (fun g => major ++ js "." ++ numberToString (parseInt g)) <$> g2 in
       (∀ ek, exactKey = Some ek → recorded sections ek → img ∈ bucket ek)
       ∧ ((∀ ek, exactKey = Some ek → ¬ recorded sections ek) →
          recorded sections major → img ∈ bucket major)
       ∧ ((∀ ek, exactKey = Some ek → ¬ recorded sections ek) →
          ¬ recorded sections major → img ∈ grouped.2))
  ∧ (∀ img, img ∈ sortedScreenshots → screenshotMatch (name img) = None →
       img ∈ grouped.2)
  ∧ (∀ nm g1 g2, screenshotMatch nm = Some (g1, g2) →
       parseInt g1 = parseInt (takeWhile isDigit nm)).
Proof.
  intros grouped bucket.
  destruct (groupScreenshots_spec sections sortedScreenshots) as [Hb Hu].
  fold grouped in Hb, Hu. split; [done|]. split; [done|].
  unfold bucket. split.
  - intros img g1 g2 Hin Hm. split_and!.
    + intros ek Hek Hrec. rewrite Hb. apply list_elem_of_filter. split; [|done].
      unfold wants, bucketKey, exactKeyOf. rewrite Hm.
      destruct g2 as [g2|]; [|done]. injection Hek as <-.
      by rewrite decide_True.
    + intros Hno Hrec. rewrite Hb. apply list_elem_of_filter. split; [|done].
      unfold wants, bucketKey, majorBucket, exactKeyOf, majorOf. rewrite Hm.
      destruct g2 as [g2|].
      * rewrite decide_False by (by apply Hno). by rewrite decide_True.
      * by rewrite decide_True.
    + intros Hno Hrec. rewrite Hu. apply list_elem_of_filter. split; [|done].
      unfold wants, bucketKey, majorBucket, exactKeyOf, majorOf. rewrite Hm.
      destruct g2 as [g2|].
      * rewrite decide_False by (by apply Hno). by rewrite decide_False.
      * by rewrite decide_False.
  - split.
    + intros img Hin Hm. rewrite Hu. apply list_elem_of_filter. split; [|done].
      unfold wants, bucketKey, majorBucket, exactKeyOf, majorOf. by rewrite Hm.
    + intros nm g1 g2. unfold screenshotMatch, numericGroup.
      destruct (takeWhile isDigit nm) as [|d ds] eqn:Hd; [done|].
      destruct (dropWhile isDigit nm) as [|sep rest]; [done|].
      destruct (isPrefixSep sep); [|done].
      intros [= <- _]. apply (parseInt_stripZeros (d :: ds)).
Qed.

End Bucketing.

(** ** The Auto-Linker: splicing *)

Lemma backtrack_spec result lo hi j1 :
  (lo < hi)%nat → (j1 ≤ hi)%nat →
  let p := backtrack result lo hi j1 in
  (lo < p ≤ hi)%nat
  ∧ (∀ j, (p < j < j1)%nat → isSeparatorAt result j = false)
  ∧ (p = hi ∧ (∀ j, (lo < j < j1)%nat → isSeparatorAt result j = false)
     ∨ (p < j1)%nat ∧ isSeparatorAt result p = true).
Proof.
  intros Hlo. induction j1 as [|j IH]; intros Hj; simpl.
  - split; [lia|]. split; [intros; lia|]. left. split; [done|]. intros; lia.
  - case_bool_decide as Hlt.
    + destruct (isSeparatorAt result j) eqn:Hsep.
      * split; [lia|]. split; [intros; lia|]. right. split; [lia|done].
      * destruct IH as (Hb & Hafter & Hcase); [lia|].
        split; [done|]. split.
        -- intros k Hk. destruct (decide (k = j)) as [->|]; [done|].
           apply Hafter. lia.
        -- destruct Hcase as [[Hp Hall]|[Hp Hs]]; [left|right; split; [lia|done]].
           split; [done|]. intros k Hk.
           destruct (decide (k = j)) as [->|]; [done|]. apply Hall. lia.
    + split; [lia|]. split; [intros; lia|]. left. split; [done|]. intros; lia.
Qed.

Lemma backtrack_agree r1 r2 lo d j1 :
  (∀ j, (j < j1)%nat → r1 !! j = r2 !! j) →
  backtrack r1 lo d j1 = backtrack r2 lo d j1.
Proof.
  induction j1 as [|j IH]; intros Hagree; simpl; [done|].
  case_bool_decide; [|done].
  unfold isSeparatorAt. rewrite (Hagree j) by lia.
  destruct (match r2 !! j with Some _ => _ | None => _ end); [done|].
  apply IH. intros k Hk. apply Hagree. lia.
Qed.

Lemma insertPoint_bounds lines bound s rest :
  Ordered bound (s :: rest) → (bound ≤ length lines)%nat →
  (lineIndex s < insertPoint lines s (head rest) ≤ length lines)%nat
  ∧ match rest with
    | [] => True
    | nx :: _ => (insertPoint lines s (head rest) ≤ lineIndex nx)%nat
    end.
Proof.
  intros (Hs & Hnx & Hrest) Hb. destruct rest as [|nx rest]; simpl.
  - lia.
  - destruct Hrest as (Hnxb & _).
    destruct (backtrack_spec lines (lineIndex s) (lineIndex nx) (lineIndex nx))
      as (Hp & _); [done|done|]. lia.
Qed.

Lemma take_drop_split {A} (l : list A) a b p :
  (a ≤ b ≤ p)%nat →
  take (p - a) (drop a l) = take (b - a) (drop a l) ++ take (p - b) (drop b l).
Proof.
  intros Hab.
  replace (p - a)%nat with ((b - a) + (p - b))%nat by lia.
  rewrite <- take_take_drop, drop_drop. by replace (a + (b - a))%nat with b by lia.
Qed.

Lemma weave_shift lines bucket a b sections :
  (a ≤ b)%nat →
  match sections with
  | [] => True
  | s :: rest => (b ≤ insertPoint lines s (head rest))%nat
  end →
  weave lines bucket a sections
  = take (b - a) (drop a lines) ++ weave lines bucket b sections.
Proof.
  intros Hab Hb. destruct sections as [|s rest]; simpl.
  - rewrite <- (take_drop (b - a) (drop a lines)) at 1.
    rewrite drop_drop. by replace (a + (b - a))%nat with b by lia.
  - rewrite (take_drop_split lines a b) by lia. by rewrite <- app_assoc.
Qed.

Section Splicing.
Context (lines : list jsstring) (byKey : gmap jsstring (list ImageFile)).

Let bucket (s : Heading) : list ImageFile := default [] (byKey !! key s).

Lemma weave_prefix sections bound :
  Ordered bound sections → (bound ≤ length lines)%nat →
  match sections with
  | [] => weave lines bucket 0 sections = lines
  | s :: _ =>
      ∃ tail, weave lines bucket 0 sections
              = take (S (lineIndex s)) lines ++ tail
  end.
Proof.
  intros Hord Hb. destruct sections as [|s rest]; [done|].
  destruct (insertPoint_bounds lines bound s rest Hord Hb) as [Hp _].
  cbn [weave]. rewrite Nat.sub_0_r. change (drop 0 lines) with lines.
  set (p := insertPoint lines s (head rest)) in *.
  rewrite <- (take_drop (S (lineIndex s)) (take p lines)).
  rewrite take_take, <- app_assoc. replace (S (lineIndex s) `min` p)%nat
    with (S (lineIndex s)) by lia. eauto.
Qed.

Lemma splice_step s rest bound :
  Ordered bound (s :: rest) → (bound ≤ length lines)%nat →
  let result := weave lines bucket 0 rest in
  let insertAt :=
    match head rest with
    | Some next => backtrack result (lineIndex s) (lineIndex next) (lineIndex next)
    | None => length result
    end in
  insertAt = insertPoint lines s (head rest)
  ∧ splice result insertAt (imageLine <$> bucket s)
    = weave lines bucket 0 (s :: rest).
Proof.
  intros Hord Hb result insertAt.
  destruct (insertPoint_bounds lines bound s rest Hord Hb) as [Hp Hnx].
  destruct Hord as (Hs & Hlt & Hrest).
  pose proof (weave_prefix rest bound Hrest Hb) as Hpre.
  assert (insertAt = insertPoint lines s (head rest)) as Hat.
  { subst insertAt result. destruct rest as [|nx rest']; simpl head.
    - by rewrite Hpre.
    - cbn [insertPoint]. destruct Hpre as [tail ->].
      apply backtrack_agree. intros j Hj.
      rewrite lookup_app_l by (rewrite length_take; destruct Hrest; lia).
      apply lookup_take_lt. lia. }
  split; [done|]. rewrite Hat.
  set (p := insertPoint lines s (head rest)) in *.
  assert (result = take p lines ++ weave lines bucket p rest) as ->.
  { subst result. rewrite (weave_shift lines bucket 0 p); [by rewrite Nat.sub_0_r|lia|].
    destruct rest as [|nx rest']; [done|].
    destruct (insertPoint_bounds lines bound nx rest' Hrest Hb). simpl in *. lia. }
  unfold splice. cbn [weave]. fold p. rewrite Nat.sub_0_r.
  change (drop 0 lines) with lines.
  rewrite take_app_length', drop_app_length'
    by (rewrite length_take; lia).
  done.
Qed.

Lemma spliceLoop_weave sections bound i1 :
  Ordered bound sections → (bound ≤ length lines)%nat →
  (i1 ≤ length sections)%nat →
  spliceLoop sections byKey i1 (weave lines bucket 0 (drop i1 sections))
  = weave lines bucket 0 sections.
Proof.
  intros Hord Hb. induction i1 as [|i IH]; intros Hi; [done|].
  cbn [spliceLoop].
  destruct (sections !! i) as [s|] eqn:Hs;
    [|apply lookup_ge_None in Hs; lia].
  assert (drop i sections = s :: drop (S i) sections) as Hdrop
    by (by apply drop_S).
  assert (Ordered bound (s :: drop (S i) sections)) as Hord'.
  { rewrite <- Hdrop. clear -Hord. revert sections Hord.
    induction i as [|i IH]; intros [|s0 rest] Hord; try done.
    apply IH. by destruct Hord as (_ & _ & ?). }
  destruct (splice_step s (drop (S i) sections) bound Hord' Hb) as [_ Hsp].
  assert (sections !! S i = head (drop (S i) sections)) as ->.
  { rewrite head_lookup, lookup_drop. f_equal. lia. }
  rewrite <- IH by lia. rewrite Hdrop, <- Hsp.
  assert (∀ r at', splice r at' [] = r) as Hnil.
  { intros r at'. unfold splice. simpl. apply take_drop. }
  unfold bucket. destruct (byKey !! key s) as [[|img matched]|]; simpl default.
  - by rewrite Hnil.
  - done.
  - by rewrite Hnil.
Qed.

Lemma spliceLoop_sublist sections i1 result :
  result `sublist_of` spliceLoop sections byKey i1 result.
Proof.
  revert result. induction i1 as [|i IH]; intros result; [done|].
  cbn [spliceLoop]. destruct (sections !! i) as [s|]; [|done].
  destruct (byKey !! key s) as [[|img matched]|]; [done| |done].
  etrans; [|apply IH]. unfold splice.
  rewrite <- (take_drop
    match sections !! S i with
    | Some next => backtrack result (lineIndex s) (lineIndex next) (lineIndex next)
    | None => length result
    end result) at 1.
  apply sublist_app; [done|]. by apply sublist_inserts_l.
Qed.

End Splicing.

(** ** The Auto-Linker: the result *)

Lemma weave_ext lines b1 b2 from sections :
  (∀ s, b1 s = b2 s) → weave lines b1 from sections = weave lines b2 from sections.
Proof.
  intros Hb. revert from. induction sections as [|s rest IH]; intros from; [done|].
  cbn [weave]. by rewrite Hb, IH.
Qed.

Lemma join_cons sep x l :
  l ≠ [] → join sep (x :: l) = x ++ sep ++ join sep l.
Proof. by destruct l. Qed.

Lemma join_app sep l1 l2 :
  l1 ≠ [] → l2 ≠ [] → join sep (l1 ++ l2) = join sep l1 ++ sep ++ join sep l2.
Proof.
  intros H1 H2. induction l1 as [|x l1 IH]; [done|].
  destruct l1 as [|y l1].
  - simpl app. by rewrite join_cons.
  - rewrite <- app_comm_cons, !join_cons by done. rewrite IH by done.
    by rewrite <- !app_assoc.
Qed.

Section Detection.
Context `{Host}.

Lemma headingOf_index index line s :
  headingOf index line = Some s → lineIndex s = index.
Proof.
  unfold headingOf. destruct (h2Match line); [by intros [= <-]|].
  destruct (h3Match line) as [[g1 g2]|]; [by intros [= <-]|done].
Qed.

Lemma detectFrom_Ordered index lines :
  Forall (fun s => (index ≤ lineIndex s)%nat) (detectFrom index lines)
  ∧ Ordered (index + length lines) (detectFrom index lines).
Proof.
  revert index. induction lines as [|line lines IH]; intros index; [done|].
  cbn [detectFrom]. destruct (IH (S index)) as [Hge Hord].
  replace (index + length (line :: lines))%nat
    with (S index + length lines)%nat by (simpl; lia).
  destruct (headingOf index line) as [s|] eqn:Hs.
  - apply headingOf_index in Hs. split.
    + constructor; [lia|]. eapply Forall_impl; [done|]. simpl. lia.
    + split; [lia|]. split; [|done].
      destruct Hge as [|nx rest Hnx _]; [done|]. lia.
  - split; [|done]. eapply Forall_impl; [done|]. simpl. lia.
Qed.

Lemma detectFrom_lookup index lines s :
  s ∈ detectFrom index lines →
  ∃ line, lines !! (lineIndex s - index)%nat = Some line
          ∧ headingOf (lineIndex s) line = Some s.
Proof.
  revert index. induction lines as [|line lines IH]; intros index.
  - by intros ?%elem_of_nil.
  - cbn [detectFrom]. intros Hin.
    assert (s ∈ detectFrom (S index) lines →
            ∃ line0, (line :: lines) !! (lineIndex s - index)%nat = Some line0
                     ∧ headingOf (lineIndex s) line0 = Some s) as Hrest.
    { intros Hs. destruct (IH _ Hs) as (line0 & Hl & Hh). exists line0.
      split; [|done].
      destruct (detectFrom_Ordered (S index) lines) as [Hge _].
      rewrite Forall_forall in Hge. specialize (Hge s Hs).
      by replace (lineIndex s - index)%nat with (S (lineIndex s - S index)) by lia. }
    destruct (headingOf index line) as [s0|] eqn:Hs0; [|by auto].
    apply elem_of_cons in Hin as [->|Hin]; [|by auto].
    pose proof (headingOf_index _ _ _ Hs0) as Hidx. exists line.
    by rewrite Hidx, Nat.sub_diag.
Qed.

End Detection.

Lemma concat_fmap_nil {A B} (l : list A) : concat ((fun _ => @nil B) <$> l) = [].
Proof. by induction l. Qed.

Lemma concat_fmap_app {A B} (a b : A → list B) (l : list A) :
  concat ((fun s => a s ++ b s) <$> l) ≡ₚ concat (a <$> l) ++ concat (b <$> l).
Proof.
  induction l as [|s l IH]; [done|]. cbn [fmap list_fmap concat].
  change (list_fmap A (list B) ?f l) with (f <$> l).
  rewrite IH, <- !app_assoc. f_equiv. rewrite !app_assoc. f_equiv.
  apply Permutation_app_comm.
Qed.

Section Result.
Context `{Host}.

Lemma one_bucket sections0 sections img :
  NoDup (key <$> sections) →
  concat ((fun s => if decide (wants sections0 (Some (key s)) img)
                    then [img] else []) <$> sections)
  = match bucketKey sections0 (name img) with
    | Some k => if decide (k ∈ key <$> sections) then [img] else []
    | None => []
    end.
Proof.
  induction sections as [|s rest IH]; intros Hnd.
  - cbn [fmap list_fmap concat]. destruct (bucketKey _ _); [|done].
    by destruct (decide _) as [?%elem_of_nil|].
  - rewrite fmap_cons in Hnd. apply NoDup_cons in Hnd as [Hs Hnd].
    rewrite !fmap_cons. cbn [concat]. rewrite (IH Hnd).
    destruct (decide (wants sections0 (Some (key s)) img)) as [Hw|Hw];
      unfold wants in Hw.
    + rewrite Hw, decide_False by done.
      rewrite decide_True; [done|]. apply elem_of_cons. by left.
    + simpl. destruct (bucketKey sections0 (name img)) as [k|]; [|done].
      destruct (decide (k ∈ key <$> rest)) as [Hin|Hin].
      * rewrite decide_True; [done|]. apply elem_of_cons. by right.
      * rewrite decide_False; [done|].
        intros [->|?]%elem_of_cons; done.
Qed.

Lemma buckets_partition sections assets :
  NoDup (key <$> sections) →
  concat (bucketFor sections assets <$> sections)
  ≡ₚ filter (matched sections) assets.
Proof.
  intros Hnd. unfold bucketFor.
  induction assets as [|img assets IH].
  - rewrite filter_nil. clear Hnd.
    induction sections as [|s rest IH]; [done|].
    rewrite fmap_cons. cbn [concat]. by rewrite filter_nil.
  - etrans.
    { erewrite (list_fmap_ext _ (fun s =>
        (if decide (wants sections (Some (key s)) img) then [img] else [])
        ++ filter (wants sections (Some (key s))) assets)).
      - apply concat_fmap_app.
      - intros i s _. rewrite filter_cons. by destruct (decide _). }
    rewrite IH, one_bucket by done. rewrite filter_cons.
    destruct (bucketKey sections (name img)) as [k|] eqn:Hk.
    + rewrite decide_True by apply (bucketKey_recorded _ _ _ Hk).
      rewrite decide_True; [done|]. unfold matched. by rewrite Hk.
    + rewrite decide_False; [done|]. unfold matched. rewrite Hk. by intros [? ?].
Qed.

Lemma processedMarkdown_weave markdownContent screenshots :
  mdHasImageRefs markdownContent = false →
  screenshots ≠ [] →
  let lines := split 10 markdownContent in
  let sections := detectSections lines in
  let sorted := localeSort screenshots in
  sections ≠ [] →
  processedMarkdown markdownContent screenshots
  = join [10]
      (appendUnmatched (weave lines (bucketFor sections sorted) 0 sections)
         (filter (wants sections None) sorted))
  ∧ spliceLoop sections (groupScreenshots sections sorted).1
      (length sections) lines
    = weave lines (bucketFor sections sorted) 0 sections
  ∧ (groupScreenshots sections sorted).2 = filter (wants sections None) sorted.
Proof.
  intros Href Hshots lines sections sorted Hsec.
  destruct (groupScreenshots_spec sections sorted) as [Hb Hu].
  assert (spliceLoop sections (groupScreenshots sections sorted).1
            (length sections) lines
          = weave lines (bucketFor sections sorted) 0 sections) as Hloop.
  { destruct (detectFrom_Ordered 0 lines) as [_ Hord].
    pose proof (spliceLoop_weave lines (groupScreenshots sections sorted).1
                  sections (length lines) (length sections) Hord
                  (le_n _) (le_n _)) as Hw.
    rewrite drop_all in Hw. cbn [weave] in Hw.
    change (drop 0 lines) with lines in Hw. rewrite Hw.
    apply weave_ext. intros s. apply Hb. }
  split; [|done].
  unfold processedMarkdown. rewrite Href. fold lines sections sorted.
  rewrite bool_decide_eq_false_2 by (by destruct screenshots).
  destruct markdownContent as [|c md]; [done|]. simpl truthy. simpl negb.
  simpl orb. cbv iota.
  rewrite bool_decide_eq_false_2 by (by destruct sections).
  destruct (groupScreenshots sections sorted) as [byKey unmatched].
  simpl in *. by rewrite Hloop, Hu.
Qed.

End Result.

Section Claims.
Context `{Host}.

Lemma Ordered_consecutive bound sections i s nx :
  Ordered bound sections → sections !! i = Some s → sections !! S i = Some nx →
  (lineIndex s < lineIndex nx)%nat.
Proof.
  revert i. induction sections as [|s0 rest IH]; intros i Hord Hi Hn; [done|].
  destruct Hord as (_ & Hnx & Hrest). destruct i as [|i].
  - destruct rest as [|r0 rest']; simpl in *; by simplify_eq.
  - by apply (IH i).
Qed.

Lemma insertPoint_placed lines s next :
  (∀ nx, next = Some nx → (lineIndex s < lineIndex nx)%nat) →
  PlacedBefore lines s next (insertPoint lines s next).
Proof.
  intros Hlt. destruct next as [nx|]; [|done]. simpl.
  destruct (backtrack_spec lines (lineIndex s) (lineIndex nx) (lineIndex nx))
    as (Hb & Hafter & Hcase); auto.
Qed.

(** C1, amended. When the Markdown holds no image reference and at
    least one numbered heading is recorded, the output is the input
    lines with, for each recorded heading, the reference lines of the
    assets asking for its key put in at its insertion point: before the
    line of the next recorded heading, or before the last
    separator-only line between the two, or at the end of the document
    after the last heading; the assets of a heading keep their sorted
    order; and when the recorded keys are pairwise distinct, the
    references put in are, one for one, the matched assets. *)
Theorem matched_assets_placed (markdownContent : jsstring)
    (screenshots : list ImageFile) :
  ¬ ContainsImageRef markdownContent →
  screenshots ≠ [] →
  let lines := split 10 markdownContent in
  let sections := detectSections lines in
  let sorted := localeSort screenshots in
  sections ≠ [] →
  processedMarkdown markdownContent screenshots
  = join [10]
      (appendUnmatched (weave lines (bucketFor sections sorted) 0 sections)
         (filter (wants sections None) sorted))
  ∧ (∀ i s, sections !! i = Some s →
       (∃ line, lines !! lineIndex s = Some line
                ∧ headingOf (lineIndex s) line = Some s)
       ∧ PlacedBefore lines s (sections !! S i)
           (insertPoint lines s (sections !! S i)))
  ∧ (∀ s, bucketFor sections sorted s `sublist_of` sorted)
  ∧ (NoDup (key <$> sections) →
     concat (bucketFor sections sorted <$> sections)
     ≡ₚ filter (matched sections) screenshots).
Proof.
  intros Href Hshots lines sections sorted Hsec.
  assert (mdHasImageRefs markdownContent = false) as Hno.
  { destruct (mdHasImageRefs markdownContent) eqn:Hm; [|done].
    by apply mdHasImageRefs_spec in Hm. }
  destruct (processedMarkdown_weave markdownContent screenshots Hno Hshots Hsec)
    as (Hout & _ & _).
  split; [done|]. split; [|split].
  - intros i s Hi. split.
    + destruct (detectFrom_lookup 0 lines s) as (line & Hl & Hh).
      { apply list_elem_of_lookup. by exists i. }
      exists line. by rewrite Nat.sub_0_r in Hl.
    + apply insertPoint_placed. intros nx Hnx.
      destruct (detectFrom_Ordered 0 lines) as [_ Hord].
      by eapply Ordered_consecutive.
  - intros s. apply sublist_filter.
  - intros Hnd. rewrite buckets_partition by done. unfold sorted.
    by rewrite (localeSort_perm screenshots).
Qed.

(** C7, amended. When the Markdown holds no image reference, at least
    one numbered heading is recorded and some asset is left unmatched,
    the output ends, after all the spliced original lines, with the
    separator line, the "reference screenshots" heading and one
    reference line for each unmatched asset, each unmatched asset
    once. *)
Theorem unmatched_assets_appended (markdownContent : jsstring)
    (screenshots : list ImageFile) :
  ¬ ContainsImageRef markdownContent →
  let lines := split 10 markdownContent in
  let sections := detectSections lines in
  let sorted := localeSort screenshots in
  let unmatched := (groupScreenshots sections sorted).2 in
  let body :=
    spliceLoop sections (groupScreenshots sections sorted).1
      (length sections) lines in
  sections ≠ [] →
  unmatched ≠ [] →
  processedMarkdown markdownContent screenshots
  = join [10] body ++ [10]
      ++ join [10] (separatorItem :: referenceHeading
                      :: (imageLine <$> unmatched))
  ∧ lines `sublist_of` body
  ∧ unmatched = filter (wants sections None) sorted
  ∧ unmatched ≡ₚ filter (wants sections None) screenshots.
Proof.
  intros Href lines sections sorted unmatched body Hsec Hun.
  assert (mdHasImageRefs markdownContent = false) as Hno.
  { destruct (mdHasImageRefs markdownContent) eqn:Hm; [|done].
    by apply mdHasImageRefs_spec in Hm. }
  assert (screenshots ≠ []) as Hshots.
  { intros ->. apply Hun. unfold unmatched, sorted.
    pose proof (localeSort_perm []) as Hp. apply Permutation_nil_r in Hp.
    by rewrite Hp. }
  destruct (processedMarkdown_weave markdownContent screenshots Hno Hshots Hsec)
    as (Hout & Hloop & Hu).
  fold lines sections sorted in Hout, Hloop, Hu. fold unmatched in Hu.
  fold body in Hloop.
  split_and!.
  - rewrite Hout, <- Hloop, <- Hu. unfold appendUnmatched.
    destruct unmatched as [|img rest] eqn:Hue; [done|].
    rewrite join_app; [done| |done].
    intros Hb. pose proof (spliceLoop_sublist
      (groupScreenshots sections sorted).1 sections (length sections) lines) as Hs.
    fold body in Hs. rewrite Hb in Hs. apply sublist_nil_r in Hs.
    by apply (split_nonempty 10 markdownContent).
  - apply spliceLoop_sublist.
  - done.
  - rewrite Hu. unfold sorted. by rewrite (localeSort_perm screenshots).
Qed.

End Claims.

(** ** Concrete runs *)

(** C1, as stated, fails when two recorded headings share a key: the one
    asset asking for that key is referenced under both. *)
Lemma duplicate_key_duplicates_reference :
  mdHasImageRefs twiceHeaded = false
  ∧ key <$> detectSections (split 10 twiceHeaded) = [js "1"; js "1"]
  ∧ bucketKey (detectSections (split 10 twiceHeaded)) (js "01_a.png") = Some (js "1")
  ∧ processedMarkdown twiceHeaded [shot "01_a.png"]
    = js "## 1. Setup" ++ [10; 10] ++ js "![01_a.png](01_a.png)" ++ [10; 10]
        ++ js "## 1. Setup again" ++ [10; 10] ++ js "![01_a.png](01_a.png)" ++ [10]
  ∧ countLines (js "![01_a.png](01_a.png)")
      (processedMarkdown twiceHeaded [shot "01_a.png"]) = 2%nat.
Proof. vm_compute. done. Qed.

Lemma matched_assets_placed_witness :
  processedMarkdown introDoc [shot "01_shot.png"]
  = js "## 1. Intro" ++ 10 :: js "text" ++ [10; 10; 10]
      ++ js "![01_shot.png](01_shot.png)" ++ [10].
Proof.
  rewrite (proj1 (matched_assets_placed introDoc [shot "01_shot.png"]
                    ltac:(intros Hc%mdHasImageRefs_spec; by vm_compute in Hc)
                    ltac:(done) ltac:(by vm_compute))).
  vm_compute. reflexivity.
Defined.

(** C7, as stated, fails when no numbered heading is recorded: the asset
    matches no heading, yet the output is the input, without appendix. *)
Lemma no_heading_no_appendix :
  mdHasImageRefs (js "Intro text") = false
  ∧ detectSections (split 10 (js "Intro text")) = []
  ∧ filter (wants [] None) (localeSort [shot "03_extra.png"]) = [shot "03_extra.png"]
  ∧ processedMarkdown (js "Intro text") [shot "03_extra.png"] = js "Intro text".
Proof. vm_compute. done. Qed.

Lemma unmatched_assets_appended_witness :
  processedMarkdown twoSections [shot "03_extra.png"]
  = twoSections ++ [10] ++ separatorItem ++ [10] ++ referenceHeading ++ [10]
      ++ imageLine (shot "03_extra.png").
Proof.
  rewrite (proj1 (unmatched_assets_appended twoSections [shot "03_extra.png"]
                    ltac:(intros Hc%mdHasImageRefs_spec; by vm_compute in Hc)
                    ltac:(by vm_compute) ltac:(by vm_compute))).
  vm_compute. reflexivity.
Defined.

Lemma assets_bucketed_by_prefix_witness :
  shot "02-01_login.png"
    ∈ default [] ((groupScreenshots sampleSections
                     [shot "02-01_login.png"; shot "05_top.png"]).1 !! js "2.1").
Proof.
  destruct (assets_bucketed_by_prefix sampleSections
              [shot "02-01_login.png"; shot "05_top.png"])
    as (_ & _ & Hplace & _).
  destruct (Hplace (shot "02-01_login.png") (js "2") (Some (js "1")))
    as (Hexact & _ & _).
  - apply list_elem_of_here.
  - reflexivity.
  - apply (Hexact (js "2.1")); [reflexivity|].
    apply (bool_decide_unpack _). vm_compute. exact I.
Defined.

Lemma pages_reassemble_witness :
  concat (paginate (flattenNodes sampleDom))
    = js "<h1>Manual</h1><p>text</p><h2>1. Intro</h2>stray"
  ∧ concat (PageTsx.paginate sampleDom)
    = js "<h1>Manual</h1><p>text</p><h2>1. Intro</h2>stray".
Proof.
  assert (Forall WellFormedDom sampleDom) as Hwf.
  { repeat constructor; by eexists. }
  destruct (pages_reassemble sampleDom Hwf) as (Hp & _ & _ & Hs).
  split; [rewrite Hp|rewrite Hs]; vm_compute; reflexivity.
Defined.

Lemma sample_nodes_wf :
  Forall HeadingWF [titleNode; sectionNode; tallList; textNode].
Proof.
  repeat constructor; intros Ht; try discriminate Ht.
  - exists 49, [], (js "Manual"). by split.
  - exists 50, (js " id=s1"), (js "1. Intro"). by split.
Qed.

Lemma lone_heading_only_before_H2_witness :
  layout [titleNode; sectionNode; tallList; textNode] !! 0%nat = Some [titleNode]
  ∧ (1%nat = length (layout [titleNode; sectionNode; tallList; textNode])
     ∨ ∃ m rest, layout [titleNode; sectionNode; tallList; textNode] !! 1%nat
                 = Some (m :: rest) ∧ tag m = js "H2").
Proof.
  split; [by vm_compute|].
  apply (proj2 (lone_heading_only_before_H2 _ sample_nodes_wf) 0%nat titleNode);
    by vm_compute.
Defined.

Lemma page_breaks_witness :
  flushes (fold_left layoutNode [titleNode; sectionNode; tallList] (mkLayout [] [] 0))
    textNode.
Proof.
  destruct (page_breaks [titleNode; sectionNode; tallList; textNode]
              [titleNode; sectionNode; tallList] [] textNode
              sample_nodes_wf eq_refl) as (_ & Hother & _).
  destruct Hother as [_ Hflush]; [by vm_compute|].
  apply Hflush; by vm_compute.
Defined.

(** * Further properties *)

(** * Further properties *)

(** ** Uploading and removing assets *)

Lemma imageMap_app prev loadedImages :
  imageMap (prev ++ loadedImages) = imageMap loadedImages ∪ imageMap prev.
Proof.
  induction loadedImages as [|img l IH] using rev_ind.
  - rewrite app_nil_r. unfold imageMap at 2. simpl. by rewrite (left_id_L ∅ (∪)).
  - rewrite app_assoc, !imageMap_snoc, IH. by rewrite insert_union_l.
Qed.

(** X1. An upload adds to the asset index: the names of the new batch
    take their new content, every other name keeps what it had; so a
    reference whose basename names an asset of the batch resolves to that
    asset's content (to nothing if the content is empty), and any other
    reference resolves as before. *)
Theorem upload_overrides (prev loadedImages : list ImageFile) (src : jsstring) :
  imageMap (PageTsx.addImages prev loadedImages)
    = imageMap loadedImages ∪ imageMap prev
  ∧ PageTsx.resolveImageSrc (PageTsx.addImages prev loadedImages) src
    = match imageMap loadedImages !! basename src with
      | Some url =>
          if truthy (basename src) && truthy url then Some url else None
      | None => PageTsx.resolveImageSrc prev src
      end.
Proof.
  split; [apply imageMap_app|].
  unfold PageTsx.resolveImageSrc, PageTsx.addImages.
  rewrite imageMap_app, lookup_union.
  destruct (imageMap loadedImages !! basename src) as [url|] eqn:Hl.
  - rewrite union_Some_l. by destruct (truthy (basename src)).
  - by rewrite (left_id_L None (∪)).
Qed.

Lemma indexed_all_kept (start k : nat) (prev : list ImageFile) :
  (k < start)%nat →
  snd <$> filter (fun p => p.1 ≠ k) (imap (fun i x => ((start + i)%nat, x)) prev)
  = prev.
Proof.
  revert start. induction prev as [|x prev IH]; intros start Hk; [done|].
  cbn [imap]. rewrite filter_cons_True by (simpl; lia).
  rewrite fmap_cons. simpl snd. f_equal.
  rewrite <- (IH (S start)) at 2 by lia. do 2 f_equal.
  apply imap_ext. intros i y _. simpl. f_equal. lia.
Qed.

Lemma removeImage_aux (start index : nat) (prev : list ImageFile) :
  snd <$> filter (fun p => p.1 ≠ (start + index)%nat)
            (imap (fun i x => ((start + i)%nat, x)) prev)
  = take index prev ++ drop (S index) prev.
Proof.
  revert start index. induction prev as [|x prev IH]; intros start index.
  - by destruct index.
  - cbn [imap]. rewrite filter_cons. cbn [fst].
    assert (imap ((fun i y => ((start + i)%nat, y)) ∘ S) prev
            = imap (fun i y => ((S start + i)%nat, y)) prev) as ->.
    { apply imap_ext. intros i y _. simpl. f_equal. lia. }
    destruct index as [|index].
    + rewrite decide_False by lia. simpl take. simpl drop. rewrite drop_0.
      apply indexed_all_kept. lia.
    + rewrite decide_True by lia. rewrite fmap_cons. simpl snd.
      replace (start + S index)%nat with (S start + index)%nat by lia.
      by rewrite IH.
Qed.

Lemma removeImage_take_drop index prev :
  PageTsx.removeImage index prev = take index prev ++ drop (S index) prev.
Proof.
  unfold PageTsx.removeImage.
  pose proof (removeImage_aux 0 index prev) as Haux. simpl in Haux.
  rewrite <- Haux. done.
Qed.

(** X2. Removing the asset of an index takes exactly that one out of the
    list, the others keeping their order; an index past the end changes
    nothing; removing the asset just uploaded restores the list. *)
Theorem removeImage_spec (index : nat) (prev : list ImageFile) :
  PageTsx.removeImage index prev = take index prev ++ drop (S index) prev
  ∧ ((length prev ≤ index)%nat → PageTsx.removeImage index prev = prev)
  ∧ ((index < length prev)%nat →
     S (length (PageTsx.removeImage index prev)) = length prev)
  ∧ (∀ img, PageTsx.removeImage (length prev) (PageTsx.addImages prev [img]) = prev).
Proof.
  pose proof removeImage_take_drop as Heq.
  split_and!.
  - apply Heq.
  - intros Hge. rewrite Heq, take_ge, drop_ge by lia. apply app_nil_r.
  - intros Hlt. rewrite Heq, length_app, length_take, length_drop. lia.
  - intros img. rewrite Heq. unfold PageTsx.addImages.
    rewrite take_app_length, drop_ge by (rewrite length_app; simpl; lia).
    apply app_nil_r.
Qed.

Lemma removeImage_spec_witness :
  PageTsx.removeImage 5 sampleImages = sampleImages
  ∧ S (length (PageTsx.removeImage 0 sampleImages)) = length sampleImages.
Proof.
  destruct (removeImage_spec 5 sampleImages) as (_ & Hout & _).
  destruct (removeImage_spec 0 sampleImages) as (_ & _ & Hin & _).
  split; [apply Hout|apply Hin]; vm_compute; lia.
Defined.

Lemma lastNamed_absent images k :
  k ∉ name <$> images → lastNamed images k = None.
Proof.
  intros Hk. unfold lastNamed.
  assert (filter (fun i => name i = k) images = []) as ->; [|done].
  induction images as [|x images IH]; [done|].
  rewrite fmap_cons in Hk. apply not_elem_of_cons in Hk as [Hx Hk].
  rewrite filter_cons_False by done. by apply IH.
Qed.

(** X3. After an asset is removed, references to other names resolve as
    before; when the names are pairwise distinct, a reference to the
    removed name no longer resolves and is rendered as the placeholder. *)
Theorem removed_asset_unresolved (images : list ImageFile) (index : nat)
    (A : ImageFile) (src : jsstring) :
  images !! index = Some A →
  (basename src ≠ name A →
   PageTsx.resolveImageSrc (PageTsx.removeImage index images) src
   = PageTsx.resolveImageSrc images src)
  ∧ (NoDup (name <$> images) → basename src = name A →
     PageTsx.resolveImageSrc (PageTsx.removeImage index images) src = None
     ∧ (src ≠ [] → ∀ alt,
        PageTsx.img (PageTsx.removeImage index images) (Some src) alt
        = RenderPlaceholder (placeholderLabel ++ basename src))).
Proof.
  intros HA. rewrite removeImage_take_drop.
  pose proof (take_drop_middle images index A HA) as Hsplit.
  split.
  - intros Hne. rewrite <- Hsplit at 3. rewrite !resolveImageSrc_unfold.
    by rewrite (lastNamed_other (take index images) (drop (S index) images) A)
      by done.
  - intros Hnd Hname.
    assert (PageTsx.resolveImageSrc (take index images ++ drop (S index) images) src
            = None) as Hnone.
    { rewrite resolveImageSrc_unfold, lastNamed_absent; [by destruct (truthy _)|].
      rewrite <- Hsplit, fmap_app, fmap_cons in Hnd.
      apply NoDup_app in Hnd as (_ & Hdisj & Hnd).
      apply NoDup_cons in Hnd as [Hnot _].
      rewrite fmap_app, Hname. intros [Hin|Hin]%elem_of_app; [|done].
      apply (Hdisj _ Hin). apply elem_of_cons. by left. }
    split; [done|]. intros Hsrc alt. unfold PageTsx.img.
    rewrite Hnone. by destruct src.
Qed.

Lemma removed_asset_unresolved_witness :
  PageTsx.resolveImageSrc (PageTsx.removeImage 0 sampleImages) (js "img/shot.png")
  = None.
Proof.
  refine (proj1 (proj2 (removed_asset_unresolved sampleImages 0
            (mkImage (js "shot.png") (js "data:A")) (js "img/shot.png") eq_refl)
            _ _)).
  - apply (bool_decide_unpack _). vm_compute. exact I.
  - reflexivity.
Defined.

(** ** The match status of [page.tsx] *)

Lemma takeWhile_dropWhile p s : takeWhile p s ++ dropWhile p s = s.
Proof.
  induction s as [|c s IH]; [done|]. simpl. destruct (p c); [|done].
  simpl. by rewrite IH.
Qed.

Lemma takeWhile_all p s : Forall (fun c => p c = true) (takeWhile p s).
Proof.
  induction s as [|c s IH]; simpl; [done|].
  destruct (p c) eqn:Hc; [|done]. by constructor.
Qed.

Lemma dropWhile_head p s c r : dropWhile p s = c :: r → p c = false.
Proof.
  induction s as [|x s IH]; simpl; [done|].
  destruct (p x) eqn:Hx; [done|]. by intros [= <- _].
Qed.

Lemma imageRefMatch_Some s url len :
  PageTsx.imageRefMatch s = Some (url, len) →
  ∃ alt post,
    s = js "![" ++ alt ++ js "](" ++ url ++ js ")" ++ post
    ∧ (ch "]" ∉ alt) ∧ (ch ")" ∉ url) ∧ url ≠ []
    ∧ len = length (js "![" ++ alt ++ js "](" ++ url ++ js ")").
Proof.
  unfold PageTsx.imageRefMatch.
  destruct (stripPrefix (js "![") s) as [r|] eqn:Hr; [|done].
  apply stripPrefix_Some in Hr as ->.
  pose proof (takeWhile_dropWhile (fun c => negb (c =? ch "]")) r) as Hsplit.
  pose proof (takeWhile_all (fun c => negb (c =? ch "]")) r) as Halt.
  set (alt := takeWhile _ r) in *.
  destruct (stripPrefix (js "](") (dropWhile _ r)) as [r2|] eqn:Hr2; [|done].
  apply stripPrefix_Some in Hr2. rewrite Hr2 in Hsplit.
  pose proof (takeWhile_dropWhile (fun c => negb (c =? ch ")")) r2) as Hsplit2.
  pose proof (takeWhile_all (fun c => negb (c =? ch ")")) r2) as Hurl.
  destruct (takeWhile _ r2) as [|u0 u] eqn:Hu; [done|].
  destruct (dropWhile _ r2) as [|cl post] eqn:Hd; [done|].
  apply dropWhile_head in Hd as Hcl.
  apply negb_false_iff, N.eqb_eq in Hcl as ->.
  intros [= <- <-]. exists alt, post.
  assert (∀ c (l : jsstring),
            Forall (fun x => negb (x =? c) = true) l → c ∉ l) as Hnotin.
  { intros c l Hl Hin. rewrite Forall_forall in Hl. specialize (Hl c Hin).
    by rewrite N.eqb_refl in Hl. }
  split_and!; [|by apply Hnotin|by apply Hnotin|done|].
  - by rewrite <- Hsplit, <- Hsplit2.
  - rewrite !length_app. simpl. lia.
Qed.

Lemma collectRefs_sound skip s url :
  url ∈ PageTsx.collectRefs skip s → RefersTo s url.
Proof.
  revert skip. induction s as [|c s IH]; intros skip; [by intros ?%elem_of_nil|].
  assert (∀ k, url ∈ PageTsx.collectRefs k s → RefersTo (c :: s) url) as Hlater.
  { intros k Hk. destruct (IH k Hk) as (pre & alt & post & -> & ?).
    by exists (c :: pre), alt, post. }
  cbn [PageTsx.collectRefs]. destruct skip as [|k]; [|by apply Hlater].
  destruct (PageTsx.imageRefMatch (c :: s)) as [[u len]|] eqn:Hm; [|by apply Hlater].
  intros [->|Hin]%elem_of_cons; [|by eapply Hlater].
  apply imageRefMatch_Some in Hm as (alt & post & Hs & ? & ? & ? & _).
  by exists [], alt, post.
Qed.

Lemma countRef_spec images st ref :
  PageTsx.countRef images st ref
  = if decide (Served images ref) then (S st.1, st.2) else (st.1, st.2 ++ [ref]).
Proof.
  unfold PageTsx.countRef.
  destruct (decide (Served images ref)) as [[Hb Hs]|Hns].
  - rewrite bool_decide_eq_true_2 by done. by destruct (basename ref).
  - destruct (basename ref) as [|c r] eqn:Hb; [done|]. simpl.
    rewrite bool_decide_eq_false_2; [done|].
    intros Hs. apply Hns. split; by rewrite Hb.
Qed.

Lemma fold_countRef images refs m u :
  fold_left (PageTsx.countRef images) refs (m, u)
  = ((m + length (filter (Served images) refs))%nat,
     u ++ filter (fun ref => ¬ Served images ref) refs).
Proof.
  revert m u. induction refs as [|ref refs IH]; intros m u.
  - simpl. by rewrite Nat.add_0_r, app_nil_r.
  - cbn [fold_left]. rewrite countRef_spec.
    destruct (decide (Served images ref)) as [Hs|Hs]; rewrite IH; cbn [fst snd].
    + rewrite filter_cons_True, filter_cons_False by auto. simpl. f_equal. lia.
    + rewrite filter_cons_False, filter_cons_True by auto.
      by rewrite <- app_assoc.
Qed.

Lemma matchStatus_fields markdownContent images :
  let status := PageTsx.matchStatus markdownContent images in
  let refs := PageTsx.collectRefs 0 markdownContent in
  PageTsx.total status = length refs
  ∧ PageTsx.matched status = length (filter (Served images) refs)
  ∧ PageTsx.unmatched status = filter (fun ref => ¬ Served images ref) refs.
Proof.
  intros status refs.
  unfold status, PageTsx.matchStatus. fold refs.
  destruct markdownContent as [|c md]; [done|]. simpl negb. cbv iota.
  rewrite fold_countRef. by simpl.
Qed.

(** X4. The status panel counts every reference once: the references
    found are occurrences [![alt](path)] of the text with a non-empty
    path; those whose basename names an uploaded asset are counted as
    matched, the others are listed as unmatched in the order of the text;
    so the total is the sum of the two, and nothing is matched when no
    asset is uploaded. *)
Theorem matchStatus_accounts (markdownContent : jsstring)
    (images : list ImageFile) :
  let status := PageTsx.matchStatus markdownContent images in
  let refs := PageTsx.collectRefs 0 markdownContent in
  PageTsx.total status = length refs
  ∧ PageTsx.matched status = length (filter (Served images) refs)
  ∧ PageTsx.unmatched status = filter (fun ref => ¬ Served images ref) refs
  ∧ PageTsx.total status
    = (PageTsx.matched status + length (PageTsx.unmatched status))%nat
  ∧ (∀ ref, ref ∈ refs → RefersTo markdownContent ref)
  ∧ (images = [] → PageTsx.matched status = 0%nat
                   ∧ PageTsx.unmatched status = refs).
Proof.
  intros status refs.
  destruct (matchStatus_fields markdownContent images) as (Ht & Hm & Hu).
  fold status refs in Ht, Hm, Hu.
  split_and!; try done.
  - rewrite Ht, Hm, Hu. clear. induction refs as [|ref refs IH]; [done|].
    destruct (decide (Served images ref)).
    + rewrite filter_cons_True, filter_cons_False by auto. simpl. lia.
    + rewrite filter_cons_False, filter_cons_True by auto. simpl. lia.
  - intros ref. apply collectRefs_sound.
  - intros ->. rewrite Hm, Hu.
    assert (∀ l : list jsstring,
              filter (Served []) l = []
              ∧ filter (fun ref => ¬ Served [] ref) l = l) as Hnone.
    { induction l as [|x l [IH1 IH2]]; [done|].
      assert (¬ Served [] x) as Hx.
      { intros [_ [? Hs]].
        change (imageMap []) with (∅ : gmap jsstring jsstring) in Hs.
        by rewrite lookup_empty in Hs. }
      rewrite filter_cons_False, filter_cons_True by auto. by rewrite IH1, IH2. }
    destruct (Hnone refs) as [-> ->]. done.
Qed.

Lemma matchStatus_accounts_witness :
  PageTsx.matched
    (PageTsx.matchStatus (js "a ![x](img/shot.png) b ![y](gone.png)") []) = 0%nat.
Proof.
  destruct (matchStatus_accounts (js "a ![x](img/shot.png) b ![y](gone.png)") [])
    as (_ & _ & _ & _ & _ & Hnone).
  by destruct (Hnone eq_refl).
Defined.

(** X5. The status panel and the preview agree: a reference listed as
    unmatched is rendered as the placeholder box, and a reference counted
    as matched is rendered as an image whenever the asset of its name has
    a non-empty content. *)
Theorem matchStatus_agrees_with_preview (markdownContent : jsstring)
    (images : list ImageFile) (ref : jsstring) (alt : option jsstring) :
  ref ∈ PageTsx.collectRefs 0 markdownContent →
  (ref ∈ PageTsx.unmatched (PageTsx.matchStatus markdownContent images) →
   PageTsx.img images (Some ref) alt
   = RenderPlaceholder (placeholderLabel ++ basename ref))
  ∧ (ref ∉ PageTsx.unmatched (PageTsx.matchStatus markdownContent images) →
     ∃ A, lastNamed images (basename ref) = Some A
          ∧ (dataUrl A ≠ [] →
             PageTsx.img images (Some ref) alt
             = RenderImage (dataUrl A) (default [] alt))).
Proof.
  intros Href.
  destruct (matchStatus_fields markdownContent images) as (_ & _ & Hu).
  rewrite Hu. clear Hu.
  destruct (collectRefs_sound _ _ _ Href) as (_ & _ & _ & _ & _ & _ & Hne).
  unfold PageTsx.img, PageTsx.resolveImageSrc.
  assert (truthy ref = true) as -> by (by destruct ref). simpl negb. cbv iota.
  split.
  - intros [Hns _]%list_elem_of_filter.
    destruct (basename ref) as [|c r] eqn:Hb; [done|]. simpl.
    destruct (imageMap images !! (c :: r)) as [url|] eqn:Hl; [|done].
    exfalso. apply Hns. split; [by rewrite Hb|]. rewrite Hb. by eexists.
  - intros Hnot.
    assert (Served images ref) as [Hb [url Hl]].
    { destruct (decide (Served images ref)) as [?|Hns]; [done|].
      exfalso. apply Hnot. apply list_elem_of_filter. by split. }
    rewrite imageMap_lookup in Hl.
    destruct (lastNamed images (basename ref)) as [A|] eqn:HA; [|done].
    exists A. split; [done|]. intros Hdata.
    destruct (basename ref) as [|c r] eqn:Hbn; [done|]. simpl.
    rewrite imageMap_lookup, HA. simpl. by destruct (dataUrl A).
Qed.

Lemma matchStatus_agrees_with_preview_witness :
  PageTsx.img sampleImages (Some (js "gone.png")) None
  = RenderPlaceholder (placeholderLabel ++ js "gone.png").
Proof.
  refine (proj1 (matchStatus_agrees_with_preview
            (js "a ![x](img/shot.png) b ![y](gone.png)") sampleImages
            (js "gone.png") None _) _).
  - apply (bool_decide_unpack _). vm_compute. exact I.
  - apply (bool_decide_unpack _). vm_compute. exact I.
Defined.

(** ** Waiting for the images before printing *)

Lemma settle_Counted totalImgs st :
  (0 < totalImgs)%nat → Counted totalImgs st → Counted totalImgs (settle totalImgs st).
Proof.
  unfold Counted, settle. simpl. intros Hpos ->.
  repeat case_decide; case_bool_decide; lia.
Qed.

Lemma startWaiting_fold totalImgs complete st :
  (0 < totalImgs)%nat → Counted totalImgs st →
  let st' := fold_left (fun st (c : bool) => if c then settle totalImgs st else st)
               complete st in
  Counted totalImgs st'
  ∧ loaded st' = (loaded st + length (filter (fun c => c = true) complete))%nat.
Proof.
  intros Hpos. revert st. induction complete as [|c complete IH]; intros st Hst.
  - simpl. split; [done|lia].
  - cbn [fold_left]. destruct c.
    + destruct (IH (settle totalImgs st)) as [Hc Hl]; [by apply settle_Counted|].
      split; [done|]. rewrite Hl, filter_cons_True by done. simpl. lia.
    + destruct (IH st Hst) as [Hc Hl]. split; [done|].
      by rewrite Hl, filter_cons_False.
Qed.

Lemma handleEvents_fold complete events st :
  (0 < length complete)%nat → Counted (length complete) st →
  let st' := fold_left (handleEvent complete) events st in
  Counted (length complete) st'
  ∧ loaded st'
    = (loaded st
       + length (filter (fun e => pendingImage complete (eventImage e)) events))%nat.
Proof.
  intros Hpos. revert st. induction events as [|e events IH]; intros st Hst.
  - simpl. split; [done|lia].
  - cbn [fold_left]. unfold handleEvent at 2 4.
    destruct (decide (pendingImage complete (eventImage e))) as [Hp|Hp].
    + rewrite filter_cons_True by done. unfold pendingImage in Hp. rewrite Hp.
      destruct (IH (settle (length complete) st)) as [Hc Hl];
        [by apply settle_Counted|].
      split; [done|]. rewrite Hl. simpl. lia.
    + rewrite filter_cons_False by done. unfold pendingImage in Hp.
      assert (match complete !! eventImage e with
              | Some false => settle (length complete) st
              | _ => st
              end = st) as ->.
      { destruct (complete !! eventImage e) as [[]|]; done. }
      by apply IH.
Qed.

Lemma waitForImages_counted complete events :
  let st := waitForImages complete events in
  triggered st
  = (if decide (length complete ≤ settledCount complete events)%nat
     then 1%nat else 0%nat)
  ∧ loaded st = settledCount complete events.
Proof.
  unfold waitForImages, startWaiting, settledCount.
  destruct complete as [|c complete].
  - simpl. assert (∀ st, fold_left (handleEvent []) events st = st) as ->.
    { induction events as [|e events IH]; intros st; [done|].
      cbn [fold_left]. unfold handleEvent at 2. by rewrite lookup_nil. }
    simpl. split; [done|].
    induction events as [|e events IH]; [done|].
    rewrite filter_cons_False; [done|]. unfold pendingImage. by rewrite lookup_nil.
  - rewrite bool_decide_eq_false_2 by done.
    set (all := c :: complete).
    destruct (startWaiting_fold (length all) all (mkExport 0 0)) as [Hc Hl];
      [simpl; lia|done|].
    destruct (handleEvents_fold all events _ ltac:(simpl; lia) Hc) as [Hc' Hl'].
    rewrite Hl' , Hl. simpl loaded. split; [|done].
    rewrite Hc'. rewrite Hl', Hl. done.
Qed.

Lemma filter_ext_in {A} (P1 P2 : A → Prop)
    `{!∀ x, Decision (P1 x), !∀ x, Decision (P2 x)} (l : list A) :
  (∀ x, x ∈ l → P1 x ↔ P2 x) → filter P1 l = filter P2 l.
Proof.
  induction l as [|a l IH]; intros Hiff; [done|].
  assert (filter P1 l = filter P2 l) as Hl.
  { apply IH. intros x Hx. apply Hiff. by apply elem_of_cons; right. }
  assert (P1 a ↔ P2 a) as Ha by (apply Hiff, elem_of_cons; by left).
  destruct (decide (P1 a)).
  - rewrite !filter_cons_True by tauto. by rewrite Hl.
  - rewrite !filter_cons_False by tauto. done.
Qed.

Lemma count_flags complete :
  (length (filter (fun c => c = true) complete)
   + length (pendingImages complete))%nat = length complete.
Proof.
  unfold pendingImages.
  induction complete as [|c complete IH] using rev_ind; [done|].
  rewrite filter_app, !length_app, seq_app, filter_app, length_app. simpl.
  assert (filter (pendingImage (complete ++ [c])) (seq 0 (length complete))
          = filter (pendingImage complete) (seq 0 (length complete))) as ->.
  { apply filter_ext_in. intros i Hi%elem_of_seq.
    unfold pendingImage. by rewrite lookup_app_l by lia. }
  pose proof (list_lookup_middle complete [] c (length complete) eq_refl) as Hmid.
  destruct c.
  - rewrite filter_cons_True by done.
    rewrite (filter_cons_False (pendingImage _))
      by (unfold pendingImage; by rewrite Hmid).
    simpl. lia.
  - rewrite filter_cons_False by done.
    rewrite (filter_cons_True (pendingImage _)) by done.
    simpl. lia.
Qed.

(** X6. The print is called for exactly once, when the count of settled
    images (those complete at once, then one per [load] or [error] event
    on a pending image) reaches the number of images, and not before; in
    particular at once when there is no image. When no image fires twice,
    this is exactly when every pending image has fired: an image that
    never settles holds the print back for ever. *)
Theorem print_when_all_settled (complete : list bool) (events : list ImgEvent) :
  let st := waitForImages complete events in
  loaded st = settledCount complete events
  ∧ triggered st
    = (if decide (length complete ≤ settledCount complete events)%nat
       then 1%nat else 0%nat)
  ∧ (complete = [] → triggered st = 1%nat)
  ∧ (NoDup (eventImage <$> events) →
     triggered st = 1%nat
     ↔ ∀ i, pendingImage complete i → i ∈ eventImage <$> events).
Proof.
  intros st. destruct (waitForImages_counted complete events) as [Ht Hl].
  fold st in Ht, Hl. split_and!; [done|done| |].
  - intros ->. by rewrite Ht.
  - intros Hnd. rewrite Ht. unfold settledCount.
    pose proof (count_flags complete) as Hcount.
    set (fired := filter (fun e => pendingImage complete (eventImage e)) events).
    assert (NoDup (eventImage <$> fired)) as Hfnd.
    { unfold fired. clear -Hnd. induction events as [|e events IH]; [constructor|].
      rewrite fmap_cons in Hnd. apply NoDup_cons in Hnd as [He Hnd].
      rewrite filter_cons. case_decide; [|by apply IH].
      rewrite fmap_cons. apply NoDup_cons. split; [|by apply IH].
      intros (e' & He' & Hin%list_elem_of_filter)%list_elem_of_fmap.
      apply He. apply list_elem_of_fmap. exists e'. by destruct Hin. }
    assert (eventImage <$> fired ⊆+ pendingImages complete) as Hsub.
    { apply NoDup_submseteq; [done|].
      intros i (e & -> & [Hp _]%list_elem_of_filter)%list_elem_of_fmap.
      apply list_elem_of_filter. split; [done|].
      apply elem_of_seq. unfold pendingImage in Hp.
      apply lookup_lt_Some in Hp. lia. }
    pose proof (submseteq_length _ _ Hsub) as Hle. rewrite length_fmap in Hle.
    split.
    + destruct (decide (length complete ≤ _)%nat) as [Hall|Hall]; [|done].
      intros _ i Hi.
      assert (eventImage <$> fired ≡ₚ pendingImages complete) as Hperm.
      { apply submseteq_length_Permutation; [done|]. rewrite length_fmap.
        unfold settledCount in Hall. fold fired in Hall. lia. }
      assert (i ∈ eventImage <$> fired) as (e & -> & [_ He]%list_elem_of_filter)%list_elem_of_fmap.
      { rewrite Hperm. apply list_elem_of_filter. split; [done|].
        apply elem_of_seq. unfold pendingImage in Hi.
        apply lookup_lt_Some in Hi. lia. }
      apply list_elem_of_fmap. by exists e.
    + intros Hall. rewrite decide_True; [done|].
      assert (pendingImages complete ⊆+ eventImage <$> fired) as Hsup.
      { apply NoDup_submseteq.
        - apply NoDup_filter, NoDup_seq.
        - intros i [Hp _]%list_elem_of_filter.
          pose proof (Hall i Hp) as Hfired.
          apply list_elem_of_fmap in Hfired as (e & -> & He).
          apply list_elem_of_fmap. exists e. split; [done|].
          apply list_elem_of_filter. by split. }
      apply submseteq_length in Hsup. rewrite length_fmap in Hsup.
      unfold settledCount. fold fired. lia.
Qed.

Lemma print_when_all_settled_witness :
  triggered (waitForImages [true; false; false] [OnError 2; OnLoad 1]) = 1%nat.
Proof.
  destruct (print_when_all_settled [true; false; false] [OnError 2; OnLoad 1])
    as (_ & _ & _ & Hiff).
  apply Hiff.
  - apply (bool_decide_unpack _). vm_compute. exact I.
  - intros i Hi. unfold pendingImage in Hi.
    destruct i as [|[|[|i]]]; try discriminate Hi.
    + apply (bool_decide_unpack _). vm_compute. exact I.
    + apply (bool_decide_unpack _). vm_compute. exact I.
Defined.

(** ** File sizes *)

Lemma tenths_bounds num den :
  den ≠ 0 →
  2 * den * tenths num den ≤ num * 20 + den
  ∧ num * 20 + den < 2 * den * (tenths num den + 1).
Proof.
  intros Hden. unfold tenths.
  pose proof (N.div_mod (num * 20 + den) (2 * den) ltac:(lia)) as Hdm.
  pose proof (N.mod_lt (num * 20 + den) (2 * den) ltac:(lia)) as Hlt.
  set (q := (num * 20 + den) / (2 * den)) in *.
  set (r := (num * 20 + den) mod (2 * den)) in *.
  clearbody q r. nia.
Qed.

(** X7. The size shown for a file: below 1024 the exact number of bytes;
    from there to 1024 * 1024 the kilobytes, from there on the
    megabytes, as the nearest number of tenths (off by at most half a
    tenth, ties upwards), never below 1.0; the last 51 sizes below
    1024 * 1024 bytes are shown as [1024.0 KB]. *)
Theorem formatFileSize_rounding (bytes : N) :
  (bytes < 1024 →
   formatFileSize bytes = uintCodes (N.to_uint bytes) ++ js " B")
  ∧ (1024 ≤ bytes < 1024 * 1024 →
     let n := tenths bytes 1024 in
     formatFileSize bytes
     = uintCodes (N.to_uint (n / 10)) ++ js "."
         ++ uintCodes (N.to_uint (n mod 10)) ++ js " KB"
     ∧ 10 ≤ n ≤ 10240
     ∧ 2 * (1024 * n) ≤ 2 * (10 * bytes) + 1024
     ∧ 2 * (10 * bytes) < 2 * (1024 * n) + 1024
     ∧ (1048525 ≤ bytes → formatFileSize bytes = js "1024.0 KB"))
  ∧ (1024 * 1024 ≤ bytes →
     let n := tenths bytes (1024 * 1024) in
     formatFileSize bytes
     = uintCodes (N.to_uint (n / 10)) ++ js "."
         ++ uintCodes (N.to_uint (n mod 10)) ++ js " MB"
     ∧ 10 ≤ n
     ∧ 2 * (1024 * 1024 * n) ≤ 2 * (10 * bytes) + 1024 * 1024
     ∧ 2 * (10 * bytes) < 2 * (1024 * 1024 * n) + 1024 * 1024).
Proof.
  split_and!.
  - intros Hlt. unfold formatFileSize. apply N.ltb_lt in Hlt. by rewrite Hlt.
  - intros [Hge Hlt] n.
    destruct (tenths_bounds bytes 1024 ltac:(done)) as [Hlo Hhi]. fold n in Hlo, Hhi.
    assert (formatFileSize bytes = toFixed1 bytes 1024 ++ js " KB") as ->.
    { unfold formatFileSize.
      apply N.ltb_ge in Hge. apply N.ltb_lt in Hlt. by rewrite Hge, Hlt. }
    unfold toFixed1. fold n.
    split_and!; try lia; [by rewrite <- !app_assoc|].
    intros Hbig. assert (n = 10240) as -> by lia. reflexivity.
  - intros Hge n.
    destruct (tenths_bounds bytes (1024 * 1024) ltac:(done)) as [Hlo Hhi].
    fold n in Hlo, Hhi.
    assert (formatFileSize bytes = toFixed1 bytes (1024 * 1024) ++ js " MB") as ->.
    { unfold formatFileSize.
      assert ((bytes <? 1024) = false) as -> by (apply N.ltb_ge; lia).
      by assert ((bytes <? 1024 * 1024) = false) as -> by (apply N.ltb_ge; lia). }
    unfold toFixed1. fold n.
    split_and!; try lia. by rewrite <- !app_assoc.
Qed.

Lemma formatFileSize_rounding_witness :
  formatFileSize 1536 = js "1.5 KB" ∧ formatFileSize 1048575 = js "1024.0 KB".
Proof.
  destruct (formatFileSize_rounding 1536) as (_ & Hkb & _).
  destruct (Hkb ltac:(lia)) as (Heq & _).
  destruct (formatFileSize_rounding 1048575) as (_ & Hkb' & _).
  destruct (Hkb' ltac:(lia)) as (_ & _ & _ & _ & Hlast).
  split; [rewrite Heq; vm_compute; reflexivity|apply Hlast; lia].
Defined.

(** ** Numbers in headings and file names *)

Lemma isDigit_cases c :
  isDigit c = true →
  c = 48 ∨ c = 49 ∨ c = 50 ∨ c = 51 ∨ c = 52 ∨ c = 53 ∨ c = 54 ∨ c = 55
  ∨ c = 56 ∨ c = 57.
Proof.
  unfold isDigit, inRange. intros [H1%N.leb_le H2%N.leb_le]%andb_true_iff. lia.
Qed.

Lemma uintCodes_digitsUint digits :
  allDigits digits → uintCodes (digitsUint digits) = digits.
Proof.
  unfold allDigits. induction digits as [|c r IH]; [done|].
  intros [Hc Hr]%andb_true_iff. cbn [digitsUint].
  destruct (isDigit_cases c Hc) as [->|[->|[->|[->|[->|[->|[->|[->|[->| ->]]]]]]]]];
    simpl; by rewrite IH.
Qed.

Lemma uintCodes_revapp l acc :
  uintCodes (Decimal.revapp l acc) = rev (uintCodes l) ++ uintCodes acc.
Proof.
  revert acc. induction l; intros acc; simpl; [done|..];
    rewrite IHl; simpl; by rewrite <- app_assoc.
Qed.

Lemma parseInt_snoc digits d :
  parseInt (digits ++ [d]) = parseInt digits * 10 + (d - 48).
Proof. unfold parseInt. by rewrite fold_left_app. Qed.

Lemma parseInt_rev_codes l :
  parseInt (rev (uintCodes l)) = DecimalPos.Unsigned.of_lu l.
Proof.
  induction l; [done|..]; cbn [uintCodes DecimalPos.Unsigned.of_lu rev];
    rewrite parseInt_snoc, IHl; lia.
Qed.

Lemma parseInt_uintCodes u : parseInt (uintCodes u) = N.of_uint u.
Proof.
  unfold N.of_uint. rewrite DecimalPos.Unsigned.of_uint_alt.
  rewrite <- parseInt_rev_codes. f_equal.
  unfold Decimal.rev. rewrite uintCodes_revapp. cbn [uintCodes].
  by rewrite app_nil_r, rev_involutive.
Qed.

Lemma uintCodes_nil u : uintCodes u = [] → u = Decimal.Nil.
Proof. by destruct u. Qed.

Lemma uintCodes_unorm u :
  u ≠ Decimal.Nil → uintCodes (Decimal.unorm u) = stripZeros (uintCodes u).
Proof.
  induction u; intros Hu; try done;
    try (unfold Decimal.unorm; cbn [Decimal.nzhead uintCodes];
         by destruct (uintCodes u)).
  rewrite DecimalFacts.unorm_D0. cbn [uintCodes stripZeros].
  destruct (uintCodes u) as [|c r] eqn:Hcodes.
  - apply uintCodes_nil in Hcodes as ->. done.
  - simpl N.eqb. cbv iota. apply IHu. by intros ->.
Qed.

Section Numbers.
Context `{Host}.

Lemma numberToString_parseInt digits :
  digits ≠ [] → allDigits digits → parseInt digits < 2 ^ 53 →
  numberToString (parseInt digits) = stripZeros digits.
Proof.
  intros Hne Hd Hsmall. unfold numberToString.
  apply N.ltb_lt in Hsmall. rewrite Hsmall.
  rewrite <- (uintCodes_digitsUint digits Hd) at 1.
  rewrite parseInt_uintCodes, DecimalN.Unsigned.to_of, uintCodes_unorm.
  - by rewrite uintCodes_digitsUint.
  - intros Hnil. apply Hne. by rewrite <- (uintCodes_digitsUint digits Hd), Hnil.
Qed.

Lemma allDigits_takeWhile s : allDigits (takeWhile isDigit s).
Proof.
  unfold allDigits. induction s as [|c s IH]; [done|]. simpl.
  destruct (isDigit c) eqn:Hc; [|done]. simpl. by rewrite Hc.
Qed.

Lemma stripZeros_digits digits :
  allDigits digits → allDigits (stripZeros digits).
Proof.
  unfold allDigits. induction digits as [|c r IH]; [done|].
  intros Hcr. cbn [stripZeros]. destruct r as [|c' r']; [done|].
  destruct (c =? 48); [|done]. apply IH.
  by apply andb_true_iff in Hcr as [_ ?].
Qed.

Lemma stripZeros_nonempty digits : digits ≠ [] → stripZeros digits ≠ [].
Proof.
  induction digits as [|c r IH]; [done|]. intros _. cbn [stripZeros].
  destruct r as [|c' r']; [done|]. destruct (c =? 48); [|done]. by apply IH.
Qed.

Lemma stripZeros_idem digits : stripZeros (stripZeros digits) = stripZeros digits.
Proof.
  induction digits as [|c r IH]; [done|]. cbn [stripZeros].
  destruct r as [|c' r']; [done|].
  destruct (c =? 48) eqn:Hc; [done|]. cbn [stripZeros]. by rewrite Hc.
Qed.

Lemma stripZeros_canonical digits : Canonical (stripZeros digits).
Proof.
  induction digits as [|c r IH]; [done|]. cbn [stripZeros].
  destruct r as [|c' r']; [done|].
  destruct (N.eqb_spec c 48); [done|]. done.
Qed.

Lemma numericGroup_digits s g rest :
  numericGroup s = Some (g, rest) →
  g = stripZeros (takeWhile isDigit s) ∧ takeWhile isDigit s ≠ [].
Proof.
  unfold numericGroup.
  destruct (takeWhile isDigit s) as [|d ds] eqn:Hd; [done|].
  destruct (dropWhile isDigit s) as [|sep r]; [done|].
  destruct (isPrefixSep sep); [|done]. by intros [= <- <-].
Qed.

Lemma numericGroup_number s g rest :
  numericGroup s = Some (g, rest) → parseInt g < 2 ^ 53 →
  numberToString (parseInt g) = g.
Proof.
  intros [-> Hne]%numericGroup_digits Hsmall.
  rewrite numberToString_parseInt, stripZeros_idem; [done| | |done].
  - by apply stripZeros_nonempty.
  - apply stripZeros_digits, allDigits_takeWhile.
Qed.

(** X8. Numbers are compared as written without their leading zeros: as
    long as a number is below 2^53, parsing and printing a run of digits
    gives the run without its leading zeros. So the keys of a file name
    are its captured groups, [major] and [major.minor]; the key of a
    level-3 heading is its two numbers stripped of leading zeros, while
    the key of a level-2 heading is its number as written. *)
Theorem keys_strip_leading_zeros :
  (∀ digits, digits ≠ [] → allDigits digits → parseInt digits < 2 ^ 53 →
     numberToString (parseInt digits) = stripZeros digits)
  ∧ (∀ nm g1 g2, screenshotMatch nm = Some (g1, g2) → parseInt g1 < 2 ^ 53 →
       g1 = stripZeros (takeWhile isDigit nm)
       ∧ majorOf nm = Some g1
       ∧ (∀ m, g2 = Some m → parseInt m < 2 ^ 53 →
            exactKeyOf nm = Some (g1 ++ js "." ++ m)))
  ∧ (∀ index line a b, h3Match line = Some (a, b) →
       parseInt a < 2 ^ 53 → parseInt b < 2 ^ 53 →
       headingOf index line
       = Some (mkHeading index (stripZeros a ++ js "." ++ stripZeros b) 3))
  ∧ (∀ index line g, h2Match line = Some g →
       headingOf index line = Some (mkHeading index g 2)).
Proof.
  split_and!.
  - apply numberToString_parseInt.
  - intros nm g1 g2 Hm Hsmall. unfold majorOf, exactKeyOf. rewrite Hm.
    unfold screenshotMatch in Hm.
    destruct (numericGroup nm) as [[g rest]|] eqn:Hg; [|done].
    injection Hm as -> <-.
    rewrite (numericGroup_number _ _ _ Hg Hsmall).
    split_and!; [by apply numericGroup_digits in Hg as [-> _]|done|].
    intros m Hm Hmsmall.
    destruct (numericGroup rest) as [[m' rest']|] eqn:Hg2; [|done].
    simpl in Hm. injection Hm as ->. simpl.
    by rewrite (numericGroup_number _ _ _ Hg2 Hmsmall).
  - intros index line a b Hm Ha Hb. unfold headingOf.
    assert (h2Match line = None) as ->.
    { unfold h3Match in Hm.
      destruct (stripPrefix (js "### ") line) as [r|] eqn:Hp; [|done].
      apply stripPrefix_Some in Hp as ->. reflexivity. }
    rewrite Hm. unfold h3Match in Hm.
    destruct (stripPrefix (js "### ") line) as [r|]; [|done].
    pose proof (allDigits_takeWhile r) as Hda.
    destruct (takeWhile isDigit r) as [|a0 a'] eqn:Hta; [done|].
    destruct (dropWhile isDigit r) as [|sep r']; [done|].
    destruct ((sep =? ch "-") || (sep =? ch ".")); [|done].
    pose proof (allDigits_takeWhile r') as Hdb.
    destruct (takeWhile isDigit r') as [|b0 b'] eqn:Htb; [done|].
    injection Hm as <- <-.
    by rewrite !numberToString_parseInt.
  - intros index line g Hm. unfold headingOf. by rewrite Hm.
Qed.

End Numbers.

Lemma keys_strip_leading_zeros_witness :
  exactKeyOf (js "02-01_login.png") = Some (js "2.1").
Proof.
  pose proof (proj1 (proj2 keys_strip_leading_zeros)) as Hfile.
  destruct (Hfile (js "02-01_login.png") (js "2") (Some (js "1")))
    as (_ & _ & Hexact); [reflexivity|by vm_compute|].
  apply (Hexact (js "1")); [reflexivity|by vm_compute].
Defined.

Section MoreLinking.
Context `{Host}.

Lemma h2Match_digits line g : h2Match line = Some g → allDigits g.
Proof.
  unfold h2Match. destruct (stripPrefix (js "## ") line) as [r|]; [|done].
  pose proof (allDigits_takeWhile r) as Hd.
  destruct (takeWhile isDigit r) as [|d ds]; [done|].
  destruct (dropWhile isDigit r) as [|dot [|ws rest]]; try done.
  destruct ((dot =? ch ".") && isWhiteSpace ws); [|done]. by intros [= <-].
Qed.

(** X9. A level-2 heading whose number is written with a leading zero
    ([## 01. ...]) gets no asset: its key is the number as written, while
    the keys of file names carry no leading zero (numbers below 2^53). *)
Theorem zero_padded_h2_never_matched (sections : list Heading)
    (assets : list ImageFile) (line : jsstring) (s : Heading) :
  h2Match line = Some (key s) →
  ¬ Canonical (key s) →
  (∀ img g1 g2, img ∈ assets → screenshotMatch (name img) = Some (g1, g2) →
     parseInt g1 < 2 ^ 53) →
  bucketFor sections assets s = [].
Proof.
  intros Hline Hpad Hsmall. apply h2Match_digits in Hline as Hdigits.
  unfold bucketFor.
  assert (∀ l : list ImageFile, (∀ img, img ∈ l → img ∈ assets) →
            filter (wants sections (Some (key s))) l = []) as Hnone; [|by apply Hnone].
  induction l as [|img l IH]; intros Hin; [done|].
  rewrite filter_cons_False; [apply IH; intros x Hx; apply Hin; by right|].
  unfold wants, bucketKey, majorBucket, exactKeyOf, majorOf.
  destruct (screenshotMatch (name img)) as [[g1 g2]|] eqn:Hm; [|done].
  assert (numberToString (parseInt g1) = g1) as ->.
  { unfold screenshotMatch in Hm.
    destruct (numericGroup (name img)) as [[g rest]|] eqn:Hg; [|done].
    injection Hm as -> _. apply (numericGroup_number _ _ _ Hg).
    eapply Hsmall; [apply Hin; by left|].
    unfold screenshotMatch. by rewrite Hg. }
  assert (Some g1 ≠ Some (key s)) as Hmajor.
  { intros [= Heq]. apply Hpad. rewrite <- Heq.
    unfold screenshotMatch in Hm.
    destruct (numericGroup (name img)) as [[g rest]|] eqn:Hg; [|done].
    injection Hm as -> _. apply numericGroup_digits in Hg as [-> _].
    apply stripZeros_canonical. }
  assert (∀ m : jsstring, Some (g1 ++ js "." ++ m) ≠ Some (key s)) as Hexact.
  { intros m [= Heq]. unfold allDigits in Hdigits.
    rewrite <- Heq, forallb_app in Hdigits. simpl in Hdigits.
    by rewrite andb_false_r in Hdigits. }
  destruct g2 as [g2|].
  - destruct (decide (recorded sections _)); [apply Hexact|].
    destruct (decide (recorded sections g1)); [done|done].
  - destruct (decide (recorded sections g1)); [done|done].
Qed.

End MoreLinking.

Lemma zero_padded_h2_never_matched_witness :
  bucketFor [mkHeading 0 (js "01") 2] [shot "01_a.png"; shot "1_b.png"]
    (mkHeading 0 (js "01") 2) = [].
Proof.
  apply (zero_padded_h2_never_matched _ _ (js "## 01. Setup")).
  - reflexivity.
  - intros Hc. by apply Hc.
  - intros img g1 g2 Hin Hm.
    apply elem_of_cons in Hin as [->|Hin];
      [|apply elem_of_cons in Hin as [->|Hin]; [|by apply elem_of_nil in Hin]];
      vm_compute in Hm; injection Hm as <- _; by vm_compute.
Defined.

(** ** Lines *)

Lemma join_split c s : join [c] (split c s) = s.
Proof.
  induction s as [|x r IH]; [done|]. cbn [split].
  pose proof (split_nonempty c r) as Hne.
  destruct (N.eqb_spec x c) as [->|Hx].
  - rewrite join_cons by done. by rewrite IH.
  - destruct (split c r) as [|h t]; [done|].
    destruct t as [|h' t']; simpl in *; by rewrite <- IH.
Qed.

Lemma split_free c s : Forall (fun line => c ∉ line) (split c s).
Proof.
  induction s as [|x r IH]; cbn [split].
  - constructor; [by intros ?%elem_of_nil|done].
  - destruct (N.eqb_spec x c) as [->|Hx].
    + constructor; [by intros ?%elem_of_nil|done].
    + destruct (split c r) as [|h t]; [by repeat constructor; intros [?|?%elem_of_nil]%elem_of_cons|].
      apply Forall_cons in IH as [Hh Ht]. constructor; [|done].
      intros [?|?]%elem_of_cons; done.
Qed.

Lemma split_app c a b :
  split c (a ++ c :: b) = split c a ++ split c b.
Proof.
  induction a as [|x a IH]; cbn [app split].
  - by rewrite N.eqb_refl.
  - rewrite IH. destruct (x =? c); [done|].
    pose proof (split_nonempty c a). by destruct (split c a).
Qed.

Lemma split_join c l :
  l ≠ [] → split c (join [c] l) = concat (split c <$> l).
Proof.
  induction l as [|x l IH]; [done|]. intros _.
  destruct l as [|y l].
  - simpl. by rewrite app_nil_r.
  - rewrite join_cons by done.
    change (x ++ [c] ++ join [c] (y :: l)) with (x ++ c :: join [c] (y :: l)).
    rewrite split_app, IH by done. done.
Qed.

Lemma concat_split_free c l :
  Forall (fun line => c ∉ line) l → concat (split c <$> l) = l.
Proof.
  induction 1 as [|x l Hx _ IH]; [done|].
  rewrite fmap_cons. cbn [concat]. by rewrite IH, split_no_sep.
Qed.

Lemma sublist_concat_fmap {A B} (f : A → list B) l1 l2 :
  l1 `sublist_of` l2 → concat (f <$> l1) `sublist_of` concat (f <$> l2).
Proof.
  induction 1 as [|x l1 l2 _ IH|x l1 l2 _ IH]; [done| |].
  - rewrite !fmap_cons. cbn [concat]. by apply sublist_app.
  - rewrite fmap_cons. cbn [concat]. by apply sublist_inserts_l.
Qed.

(** ** The Auto-Linker: what it adds *)

Lemma imageLine_refLine img : imageLine img = 10 :: refLine img ++ [10].
Proof.
  unfold imageLine, refLine.
  change (js (String "010" "![")) with (10 :: js "![").
  change (js (String ")" (String "010" EmptyString))) with (js ")" ++ [10]).
  rewrite <- !app_assoc. reflexivity.
Qed.

Lemma split_imageLine img :
  10 ∉ name img → split 10 (imageLine img) = [[]; refLine img; []].
Proof.
  intros Hfree. rewrite imageLine_refLine.
  change (10 :: refLine img ++ [10]) with ([] ++ 10 :: refLine img ++ [10]).
  rewrite split_app. rewrite (split_app 10 (refLine img) []).
  rewrite (split_no_sep 10 (refLine img)); [done|].
  unfold refLine. rewrite !elem_of_app.
  intros [Hin|[Hin|[Hin|[Hin|Hin]]]]; try done;
    revert Hin; apply (bool_decide_unpack _); vm_compute; exact I.
Qed.

Lemma join_elem sep l e :
  e ∈ l → ∃ a b, join sep l = a ++ e ++ b.
Proof.
  induction l as [|x l IH]; [by intros ?%elem_of_nil|].
  intros [->|Hin]%elem_of_cons.
  - destruct l as [|y l].
    + exists [], []. simpl. by rewrite app_nil_r.
    + exists [], (sep ++ join sep (y :: l)). by rewrite join_cons.
  - destruct (IH Hin) as (a & b & Hj). destruct l as [|y l]; [by apply elem_of_nil in Hin|].
    exists (x ++ sep ++ a), b. rewrite join_cons by done. rewrite Hj.
    by rewrite <- !app_assoc.
Qed.

Section Adds.
Context `{Host}.

Lemma processedMarkdown_cases markdownContent screenshots :
  processedMarkdown markdownContent screenshots = markdownContent
  ∨ (mdHasImageRefs markdownContent = false ∧ screenshots ≠ []
     ∧ detectSections (split 10 markdownContent) ≠ []).
Proof.
  destruct (mdHasImageRefs markdownContent) eqn:Href;
    [left; unfold processedMarkdown; by rewrite Href|].
  destruct (decide (screenshots = [])) as [->|Hshots];
    [left; unfold processedMarkdown; by rewrite Href|].
  destruct (decide (detectSections (split 10 markdownContent) = []))
    as [Hsec|Hsec]; [|by right].
  left. unfold processedMarkdown. rewrite Hsec.
  by destruct (_ || _ || _).
Qed.

Lemma weave_bucket lines bucket from sections s img :
  s ∈ sections → img ∈ bucket s → imageLine img ∈ weave lines bucket from sections.
Proof.
  revert from. induction sections as [|s0 rest IH]; intros from;
    [by intros ?%elem_of_nil|].
  intros [->|Hin]%elem_of_cons Himg; cbn [weave]; rewrite !elem_of_app.
  - right. left. apply list_elem_of_fmap. by exists img.
  - right. right. by apply IH.
Qed.

Lemma weave_sublist lines bucket sections bound :
  Ordered bound sections → (bound ≤ length lines)%nat →
  lines `sublist_of` weave lines bucket 0 sections.
Proof.
  intros Hord Hb.
  revert Hord.
  assert (∀ from secs, Ordered bound secs →
            (match secs with
             | [] => True
             | s :: _ => (from ≤ S (lineIndex s))%nat
             end) →
            drop from lines `sublist_of` weave lines bucket from secs) as Hgen.
  { intros from secs. revert from.
    induction secs as [|s rest IH]; intros from Hord Hfrom; [done|].
    cbn [weave].
    destruct (insertPoint_bounds lines bound s rest Hord Hb) as [[Hlo Hhi] Hnx].
    set (p := insertPoint lines s (head rest)) in *.
    rewrite <- (take_drop (p - from) (drop from lines)) at 1.
    apply sublist_app; [done|]. apply sublist_inserts_l.
    rewrite drop_drop. replace (from + (p - from))%nat with p by lia.
    apply IH; [by destruct Hord as (_ & _ & ?)|].
    destruct rest as [|nx rest']; [done|]. simpl in Hnx. lia. }
  intros Hord. apply (Hgen 0%nat sections Hord). destruct sections; [done|lia].
Qed.

Lemma linkedLines_spec markdownContent screenshots :
  mdHasImageRefs markdownContent = false → screenshots ≠ [] →
  detectSections (split 10 markdownContent) ≠ [] →
  processedMarkdown markdownContent screenshots
  = join [10] (linkedLines markdownContent screenshots)
  ∧ split 10 markdownContent `sublist_of` linkedLines markdownContent screenshots
  ∧ ∀ img, img ∈ screenshots →
      imageLine img ∈ linkedLines markdownContent screenshots.
Proof.
  intros Href Hshots Hsec.
  destruct (processedMarkdown_weave markdownContent screenshots Href Hshots Hsec)
    as (Hout & _ & _).
  split; [done|]. unfold linkedLines.
  set (lines := split 10 markdownContent) in *.
  set (sections := detectSections lines) in *.
  set (sorted := localeSort screenshots) in *.
  destruct (detectFrom_Ordered 0 lines) as [_ Hord]. fold (detectSections lines) in Hord.
  fold sections in Hord. simpl in Hord.
  assert (∀ result unmatchedScreenshots,
            result `sublist_of` appendUnmatched result unmatchedScreenshots)
    as Happ.
  { intros result [|u us]; [done|]. simpl. by apply sublist_inserts_r. }
  split.
  - etrans; [|apply Happ]. by eapply weave_sublist.
  - intros img Himg.
    assert (img ∈ sorted) as Hsorted.
    { unfold sorted. by rewrite (localeSort_perm screenshots). }
    destruct (bucketKey sections (name img)) as [k|] eqn:Hk.
    + eapply elem_of_sublist; [|apply Happ].
      apply bucketKey_recorded in Hk as Hrec. unfold recorded in Hrec.
      apply list_elem_of_fmap in Hrec as (s & -> & Hs).
      eapply weave_bucket; [done|].
      apply list_elem_of_filter. by split.
    + assert (img ∈ filter (wants sections None) sorted) as Hun
        by (apply list_elem_of_filter; by split).
      destruct (filter (wants sections None) sorted) as [|u us] eqn:Hf;
        [by apply elem_of_nil in Hun|].
      unfold appendUnmatched. rewrite !elem_of_app. right. right.
      apply list_elem_of_fmap. by exists img.
Qed.

(** X10. The Auto-Linker only adds lines: the lines of its input are, in
    their order, among the lines of its output. *)
Theorem autolinker_keeps_lines (markdownContent : jsstring)
    (screenshots : list ImageFile) :
  split 10 markdownContent
    `sublist_of` split 10 (processedMarkdown markdownContent screenshots).
Proof.
  destruct (processedMarkdown_cases markdownContent screenshots)
    as [->|(Href & Hshots & Hsec)]; [done|].
  destruct (linkedLines_spec _ _ Href Hshots Hsec) as (-> & Hsub & _).
  rewrite split_join.
  - rewrite <- (concat_split_free 10 (split 10 markdownContent)) at 1
      by apply split_free.
    by apply sublist_concat_fmap.
  - intros Hnil. rewrite Hnil in Hsub. apply sublist_nil_r in Hsub.
    by apply (split_nonempty 10 markdownContent).
Qed.

(** X11. When the Auto-Linker links (no image reference in the text, at
    least one recorded heading), no asset is left out: the reference line
    of every uploaded asset whose name holds no line feed is a line of
    the output. *)
Theorem every_asset_referenced (markdownContent : jsstring)
    (screenshots : list ImageFile) (img : ImageFile) :
  ¬ ContainsImageRef markdownContent →
  detectSections (split 10 markdownContent) ≠ [] →
  img ∈ screenshots →
  10 ∉ name img →
  refLine img ∈ split 10 (processedMarkdown markdownContent screenshots).
Proof.
  intros Href Hsec Himg Hfree.
  assert (mdHasImageRefs markdownContent = false) as Hno.
  { destruct (mdHasImageRefs markdownContent) eqn:Hm; [|done].
    by apply mdHasImageRefs_spec in Hm. }
  assert (screenshots ≠ []) as Hshots by (intros ->; by apply elem_of_nil in Himg).
  destruct (linkedLines_spec _ _ Hno Hshots Hsec) as (-> & _ & Hall).
  specialize (Hall img Himg).
  rewrite split_join by (intros Hnil; rewrite Hnil in Hall; by apply elem_of_nil in Hall).
  apply list_elem_of_In, in_concat. exists (split 10 (imageLine img)). split.
  - apply list_elem_of_In, list_elem_of_fmap. by exists (imageLine img).
  - rewrite split_imageLine by done. simpl. auto.
Qed.

(** X12. Linking is idempotent: when no asset name holds a line
    terminator, the Auto-Linker run on its own output (with the same
    assets) returns that output. *)
Theorem autolinker_idempotent (markdownContent : jsstring)
    (screenshots : list ImageFile) :
  Forall (fun img => Forall (fun c => isLineTerminator c = false) (name img))
    screenshots →
  processedMarkdown (processedMarkdown markdownContent screenshots) screenshots
  = processedMarkdown markdownContent screenshots.
Proof.
  intros Hnames.
  destruct (processedMarkdown_cases markdownContent screenshots)
    as [Hsame|(Href & Hshots & Hsec)]; [by rewrite !Hsame|].
  destruct (linkedLines_spec _ _ Href Hshots Hsec) as (Hout & _ & Hall).
  destruct screenshots as [|img rest]; [done|].
  apply Forall_cons in Hnames as [Himg _].
  destruct (join_elem [10] _ _ (Hall img ltac:(by left))) as (a & b & Hj).
  assert (ContainsImageRef (processedMarkdown markdownContent (img :: rest)))
    as Hc%mdHasImageRefs_spec.
  { rewrite Hout, Hj, imageLine_refLine. unfold refLine.
    exists (a ++ [10]), (name img), (name img), (10 :: b).
    split; [|done]. rewrite <- !app_assoc. cbn [app].
    rewrite <- !app_assoc. cbn [app]. reflexivity. }
  unfold processedMarkdown at 1. by rewrite Hc.
Qed.

End Adds.

Lemma every_asset_referenced_witness :
  refLine (shot "03_extra.png")
    ∈ split 10 (processedMarkdown twoSections [shot "01_a.png"; shot "03_extra.png"]).
Proof.
  apply every_asset_referenced.
  - intros Hc%mdHasImageRefs_spec. by vm_compute in Hc.
  - by vm_compute.
  - apply (bool_decide_unpack _). vm_compute. exact I.
  - apply (bool_decide_unpack _). vm_compute. exact I.
Defined.

Lemma autolinker_idempotent_witness :
  processedMarkdown (processedMarkdown introDoc [shot "01_shot.png"])
    [shot "01_shot.png"]
  = processedMarkdown introDoc [shot "01_shot.png"].
Proof.
  apply autolinker_idempotent. repeat constructor.
Defined.

(** ** Pagination: the pages as a whole *)

Lemma markup_solid page :
  page ≠ [] → Forall SolidNode page → Solid (markup page).
Proof.
  intros Hne Hs. destruct Hs as [|n page Hn _]; [done|].
  unfold Solid, markup. rewrite fmap_cons. cbn [concat].
  rewrite truthy_trim_app. unfold SolidNode, Solid in Hn. by rewrite Hn.
Qed.

Lemma keeps_cause g node :
  keeps g node → Solid (markup (openPage g)) →
  tag node ≠ js "H2"
  ∧ (MAX_PAGE_HEIGHT < openHeight g + estimateHeight node →
     isOnlyHeading (trim (markup (openPage g))) = true).
Proof.
  intros Hk Hs.
  assert (¬ flushes g node) as Hnf by (intros Hf; by apply (flushes_not_keeps g node)).
  unfold flushes, layoutNode, Solid in *. rewrite Hs in Hnf.
  destruct (bool_decide (tag node = js "H2")) eqn:Hh2; simpl in Hnf;
    [by destruct Hnf|].
  apply bool_decide_eq_false in Hh2. split; [done|]. intros Hlt%N.ltb_lt.
  rewrite Hlt in Hnf. simpl in Hnf.
  destruct (isOnlyHeading _); [done|]. simpl in Hnf. by destruct Hnf.
Qed.

Lemma GoodPage_singleton node : GoodPage [node].
Proof.
  split; [done|by constructor|].
  intros [|m pre] n post Heq Hne; [done|].
  apply (f_equal length) in Heq. simpl in Heq. rewrite length_app in Heq.
  simpl in Heq. lia.
Qed.

Lemma GoodPage_snoc page node :
  GoodPage page → tag node ≠ js "H2" →
  (MAX_PAGE_HEIGHT < pageHeight page + estimateHeight node →
   isOnlyHeading (trim (markup page)) = true) →
  GoodPage (page ++ [node]).
Proof.
  intros [Hne Hh2 Hb] Hnode Hlast. split.
  - by destruct page.
  - destruct page as [|m page]; [done|]. simpl in *.
    apply Forall_app. split; [done|by constructor].
  - intros pre n post Heq Hpre Hlt.
    destruct (decide (post = [])) as [->|Hpost].
    + apply app_inj_tail in Heq as [-> ->]. by apply Hlast.
    + destruct (exists_last Hpost) as (post' & last & ->).
      change (pre ++ n :: post' ++ [last]) with (pre ++ (n :: post') ++ [last]) in Heq.
      rewrite app_assoc in Heq. apply app_inj_tail in Heq as [-> _].
      by eapply Hb.
Qed.

Lemma layoutNode_pages g node :
  SolidNode node → PagesInv g → PagesInv (layoutNode g node).
Proof.
  intros Hnode [Hh Hs Hd Ho]. split.
  - by apply layoutNode_height.
  - destruct (flushes_or_keeps g node) as [[_ ->]|[_ ->]].
    + by constructor.
    + apply Forall_app. split; [done|by constructor].
  - destruct (flushes_or_keeps g node) as [Hf|[-> _]]; [|done].
    destruct (flushes_cause _ _ Hf) as [Hsolid _]. destruct Hf as [-> _].
    apply Forall_app. split; [done|]. constructor; [|done].
    destruct Ho as [Ho|Ho]; [|done]. by rewrite Ho in Hsolid.
  - right. destruct (flushes_or_keeps g node) as [[_ ->]|Hk].
    + apply GoodPage_singleton.
    + pose proof Hk as [_ ->].
      destruct Ho as [->|Ho]; [apply GoodPage_singleton|].
      destruct (keeps_cause g node Hk) as [Hh2 Hlt].
      { apply markup_solid; [by destruct Ho|done]. }
      apply GoodPage_snoc; [done|done|]. by rewrite <- Hh.
Qed.

Lemma fold_layoutNode_pages nodes g :
  Forall SolidNode nodes → PagesInv g → PagesInv (fold_left layoutNode nodes g).
Proof.
  intros Hn. revert g. induction Hn as [|node nodes Hnode _ IH]; intros g Hg; simpl.
  - done.
  - by apply IH, layoutNode_pages.
Qed.

Lemma layout_good nodes :
  Forall SolidNode nodes → Forall GoodPage (layout nodes).
Proof.
  intros Hn.
  assert (PagesInv (mkLayout [] [] 0)) as Hinit.
  { split; simpl; [done|done|done|by left]. }
  destruct (fold_layoutNode_pages nodes _ Hn Hinit) as [_ _ Hd Ho].
  unfold layout, layoutFinish.
  destruct (truthy (trim (markup (openPage _)))) eqn:Ht; [|done].
  apply Forall_app. split; [done|]. constructor; [|done].
  destruct Ho as [Ho|Ho]; [|done]. by rewrite Ho in Ht.
Qed.

Lemma length_concat_nonempty {A} (pages : list (list A)) :
  Forall (fun page => page ≠ []) pages → (length pages ≤ length (concat pages))%nat.
Proof.
  induction 1 as [|page pages Hp _ IH]; simpl; [done|].
  rewrite length_app. destruct page; [done|]. simpl. lia.
Qed.

Lemma count_heads {A} (P : A → Prop) `{!∀ x, Decision (P x)} (pages : list (list A)) :
  Forall (fun page => Forall (fun x => ¬ P x) (tail page)) pages →
  (length (filter P (concat pages)) ≤ length pages)%nat.
Proof.
  induction 1 as [|page pages Hp _ IH]; simpl; [done|].
  rewrite filter_app, length_app.
  assert (length (filter P page) ≤ 1)%nat; [|lia].
  destruct page as [|x page]; [simpl; lia|]. simpl in Hp.
  assert (filter P page = []) as Hnil.
  { clear -Hp. induction Hp as [|y page Hy _ IH]; [done|].
    by rewrite filter_cons_False. }
  destruct (decide (P x)).
  - rewrite filter_cons_True, Hnil by done. done.
  - rewrite filter_cons_False, Hnil by done. simpl. lia.
Qed.

Lemma estimateHeight_min node : 25 ≤ estimateHeight node.
Proof.
  unfold estimateHeight.
  repeat (case_match; try lia).
Qed.

Lemma pageHeight_min page : 25 * N.of_nat (length page) ≤ pageHeight page.
Proof.
  induction page as [|n page IH]; [done|].
  cbn [pageHeight length]. pose proof (estimateHeight_min n). lia.
Qed.

Lemma rev_dropWhile_prefix p (s : jsstring) :
  ∃ t, s = rev (dropWhile p (rev s)) ++ t.
Proof.
  exists (rev (takeWhile p (rev s))).
  rewrite <- rev_app_distr, takeWhile_dropWhile. by rewrite rev_involutive.
Qed.

Lemma isOnlyHeading_opens s :
  isOnlyHeading (trim s) = true → opensAsHeading s = true.
Proof.
  unfold trim, opensAsHeading.
  destruct (rev_dropWhile_prefix isWhiteSpace (dropWhile isWhiteSpace s)) as [t Ht].
  destruct (rev (dropWhile isWhiteSpace (rev (dropWhile isWhiteSpace s))))
    as [|lt [|h [|d r]]]; try done.
  rewrite Ht. cbn [app isOnlyHeading].
  intros Hm. by destruct (lt =? ch "<"), (isH h), (inRange 49 52 d).
Qed.

Lemma dropWhile_app_solid p (a b : jsstring) :
  dropWhile p a ≠ [] → dropWhile p (a ++ b) = dropWhile p a ++ b.
Proof.
  induction a as [|c a IH]; [done|]. simpl. destruct (p c); [done|done].
Qed.

Lemma opensAsHeading_app a b :
  opensAsHeading a = true → opensAsHeading (a ++ b) = true.
Proof.
  unfold opensAsHeading. intros Ha.
  rewrite dropWhile_app_solid by (by destruct (dropWhile isWhiteSpace a)).
  by destruct (dropWhile isWhiteSpace a) as [|lt [|h [|d r]]].
Qed.

(** X13. With no blank node, every second-level heading opens a page of
    the height-aware paginator: no page is empty, a second-level heading
    is never anywhere but first on its page, so there are at least as
    many pages as such headings and at most as many as nodes. *)
Theorem h2_opens_page (nodes : list PageNode) :
  Forall SolidNode nodes →
  Forall (fun page => page ≠ [] ∧ Forall (fun n => tag n ≠ js "H2") (tail page))
    (layout nodes)
  ∧ (length (filter (fun n => tag n = js "H2") nodes) ≤ length (paginate nodes))%nat
  ∧ (length (paginate nodes) ≤ length nodes)%nat
  ∧ (nodes ≠ [] → paginate nodes ≠ []).
Proof.
  intros Hn. pose proof (layout_good nodes Hn) as Hgood.
  pose proof (layout_concat nodes Hn) as Hc.
  assert (length (paginate nodes) = length (layout nodes)) as Hlen
    by (by rewrite <- layout_erase, length_fmap).
  rewrite Hlen.
  assert (Forall (fun page => page ≠ []) (layout nodes)) as Hne
    by (eapply Forall_impl; [exact Hgood|]; by intros page []).
  assert (Forall (fun page => Forall (fun n => tag n ≠ js "H2") (tail page))
            (layout nodes)) as Hh2
    by (eapply Forall_impl; [exact Hgood|]; by intros page []).
  split_and!.
  - eapply Forall_impl; [exact Hgood|]. by intros page [].
  - rewrite <- Hc at 1. by apply count_heads.
  - rewrite <- Hc at 2. by apply length_concat_nonempty.
  - intros Hnodes Hnil. apply (f_equal length) in Hnil. rewrite Hlen in Hnil.
    destruct (layout nodes); [|done]. by rewrite <- Hc in Hnodes.
Qed.

Lemma h2_opens_page_witness :
  (length (filter (fun n => tag n = js "H2")
             [titleNode; textNode; sectionNode; textNode; sectionNode])
   ≤ length (paginate [titleNode; textNode; sectionNode; textNode; sectionNode]))%nat.
Proof.
  apply h2_opens_page. repeat constructor.
Defined.

(** X14. The budget of a page. With no blank node, on every page a node
    past the first takes the estimated height over 880 only if the page
    before it passed the lone-heading test; so a page whose markup does
    not open with a heading tag holds one node or stays within 880, and
    a page within 880 holds at most 35 nodes. *)
Theorem page_budget (nodes : list PageNode) (page : list PageNode) :
  Forall SolidNode nodes →
  page ∈ layout nodes →
  (∀ pre n post, page = pre ++ n :: post → pre ≠ [] →
     MAX_PAGE_HEIGHT < pageHeight pre + estimateHeight n →
     isOnlyHeading (trim (markup pre)) = true)
  ∧ (opensAsHeading (markup page) = false →
     (∃ n, page = [n]) ∨ pageHeight page ≤ MAX_PAGE_HEIGHT)
  ∧ (pageHeight page ≤ MAX_PAGE_HEIGHT → (length page ≤ 35)%nat).
Proof.
  intros Hn Hin.
  pose proof (layout_good nodes Hn) as Hgood.
  rewrite Forall_forall in Hgood. destruct (Hgood page Hin) as [Hne _ Hb].
  split_and!; [done| |].
  - intros Hopen.
    destruct (exists_last Hne) as (pre & n & ->).
    destruct pre as [|m pre]; [left; by exists n|]. right.
    rewrite pageHeight_snoc. apply N.le_ngt. intros Hlt.
    specialize (Hb (m :: pre) n [] eq_refl ltac:(done) Hlt).
    apply isOnlyHeading_opens in Hb.
    rewrite markup_snoc, opensAsHeading_app in Hopen; done.
  - intros Hle. pose proof (pageHeight_min page). unfold MAX_PAGE_HEIGHT in *. lia.
Qed.

Lemma page_budget_witness :
  (∃ n, [textNode; textNode] = [n])
  ∨ pageHeight [textNode; textNode] ≤ MAX_PAGE_HEIGHT.
Proof.
  apply (page_budget [textNode; textNode; tallList]).
  - repeat constructor.
  - replace (layout [textNode; textNode; tallList])
      with [[textNode; textNode]; [tallList]] by (by vm_compute).
    by left.
  - reflexivity.
Defined.

(** ** The heading-split paginator *)

Lemma placeChild_other secs cur el :
  WellFormedDom el → tagName el ≠ Some (js "H2") →
  PageTsx.placeChild (secs, cur) el = (secs, cur ++ nodeMarkup el).
Proof.
  unfold WellFormedDom, nodeMarkup, flattenNode, PageTsx.placeChild.
  intros Hwf Hh2. rewrite bool_decide_eq_false_2 by done.
  destruct (tagName el) as [t|], (outerHTML el) as [h|]; try done.
  - destruct Hwf as [r ->]. simpl.
    case_bool_decide; simpl; [by rewrite app_nil_r|done].
  - rewrite bool_decide_eq_false_2 by done. simpl.
    destruct (textContent el) as [t|]; simpl; [|by rewrite app_nil_r].
    destruct (truthy (trim t)); simpl; [done|by rewrite app_nil_r].
Qed.

Lemma placeChild_h2 secs cur el :
  WellFormedDom el → tagName el = Some (js "H2") →
  ∃ r, outerHTML el = Some (ch "<" :: r)
       ∧ PageTsx.placeChild (secs, cur) el
         = ((if truthy (trim cur) then secs ++ [cur] else secs), ch "<" :: r).
Proof.
  unfold WellFormedDom, PageTsx.placeChild. intros Hwf Hh2.
  rewrite bool_decide_eq_true_2 by done. rewrite Hh2 in Hwf.
  destruct (outerHTML el) as [h|]; [|done]. destruct Hwf as [r ->].
  by exists r.
Qed.

Lemma fold_placeChild_other els secs cur :
  Forall WellFormedDom els →
  Forall (fun el => tagName el ≠ Some (js "H2")) els →
  fold_left PageTsx.placeChild els (secs, cur) = (secs, cur ++ runMarkup els).
Proof.
  intros Hwf. revert cur.
  induction Hwf as [|el els Hel _ IH]; intros cur Hno.
  - simpl. by rewrite app_nil_r.
  - apply Forall_cons in Hno as [Hh2 Hno]. cbn [fold_left].
    rewrite placeChild_other, IH by done.
    unfold runMarkup. rewrite fmap_cons. cbn [concat]. by rewrite app_assoc.
Qed.

Lemma fold_placeChild_headed h2s els secs cur :
  Forall WellFormedDom els →
  (∀ el, el ∈ els → el ∈ h2s) →
  HeadedBy h2s cur → Solid cur →
  ∃ pages cur',
    fold_left PageTsx.placeChild els (secs, cur) = (secs ++ pages, cur')
    ∧ length pages = length (filter (fun el => tagName el = Some (js "H2")) els)
    ∧ Forall (HeadedBy h2s) pages
    ∧ HeadedBy h2s cur' ∧ Solid cur'.
Proof.
  intros Hwf. revert secs cur.
  induction Hwf as [|el els Hel _ IH]; intros secs cur Hsub Hcur Hsolid.
  - exists [], cur. by rewrite app_nil_r.
  - cbn [fold_left].
    assert (∀ el, el ∈ els → el ∈ h2s) as Hsub'
      by (intros e He; apply Hsub; by right).
    destruct (decide (tagName el = Some (js "H2"))) as [Hh2|Hh2].
    + destruct (placeChild_h2 secs cur el Hel Hh2) as (r & Hout & ->).
      unfold Solid in Hsolid. rewrite Hsolid.
      destruct (IH (secs ++ [cur]) (ch "<" :: r) Hsub') as (pages & cur' & -> & Hlen & Hp & Hc & Hs).
      { exists el, (ch "<" :: r), []. split_and!; [apply Hsub; by left|done|done|].
        by rewrite app_nil_r. }
      { apply truthy_trim_lt. }
      exists (cur :: pages), cur'. split_and!; [|rewrite filter_cons_True by done; simpl; by rewrite Hlen| |done|done].
      * by rewrite <- app_assoc.
      * by constructor.
    + rewrite placeChild_other by done.
      destruct (IH secs (cur ++ nodeMarkup el) Hsub') as (pages & cur' & -> & Hlen & Hp & Hc & Hs).
      { destruct Hcur as (e & h & more & ? & ? & ? & ->).
        exists e, h, (more ++ nodeMarkup el). by rewrite app_assoc. }
      { unfold Solid in *. by rewrite truthy_trim_app, Hsolid. }
      exists pages, cur'. by rewrite filter_cons_False.
Qed.

(** X15. The heading-split paginator makes the text before the first
    second-level heading one page (if it is not blank) and then one page
    for each second-level heading, which starts with that heading's
    markup; without such a heading the whole text is one page. *)
Theorem heading_split_pages (childNodes : list DomNode) :
  Forall WellFormedDom childNodes →
  (Forall (fun el => tagName el ≠ Some (js "H2")) childNodes →
   PageTsx.paginate childNodes
   = if truthy (trim (runMarkup childNodes)) then [runMarkup childNodes] else [])
  ∧ ∀ pre h2 rest,
      childNodes = pre ++ h2 :: rest →
      Forall (fun el => tagName el ≠ Some (js "H2")) pre →
      tagName h2 = Some (js "H2") →
      ∃ pages,
        PageTsx.paginate childNodes
        = (if truthy (trim (runMarkup pre)) then [runMarkup pre] else []) ++ pages
        ∧ length pages
          = S (length (filter (fun el => tagName el = Some (js "H2")) rest))
        ∧ Forall (HeadedBy (h2 :: rest)) pages.
Proof.
  intros Hwf. split.
  - intros Hno. unfold PageTsx.paginate.
    by rewrite fold_placeChild_other.
  - intros pre h2 rest -> Hno Hh2.
    apply Forall_app in Hwf as [Hpre [Hel Hrest]%Forall_cons].
    unfold PageTsx.paginate. rewrite fold_left_app. cbn [fold_left].
    rewrite fold_placeChild_other by done. cbn [app].
    destruct (placeChild_h2 [] (runMarkup pre) h2 Hel Hh2) as (r & Hout & ->).
    set (first := if truthy (trim (runMarkup pre)) then [] ++ [runMarkup pre] else []).
    destruct (fold_placeChild_headed (h2 :: rest) rest first (ch "<" :: r) Hrest)
      as (pages & cur' & -> & Hlen & Hp & Hc & Hs).
    { intros e He. by right. }
    { exists h2, (ch "<" :: r), []. split_and!; [by left|done|done|].
      by rewrite app_nil_r. }
    { apply truthy_trim_lt. }
    unfold Solid in Hs. rewrite Hs.
    exists (pages ++ [cur']). split_and!.
    + unfold first. rewrite <- app_assoc. by destruct (truthy _).
    + rewrite length_app, Hlen. simpl. lia.
    + apply Forall_app. split; [done|by constructor].
Qed.

Lemma heading_split_pages_witness :
  ∃ pages,
    PageTsx.paginate sampleDom
    = (if truthy (trim (runMarkup (take 4 sampleDom)))
       then [runMarkup (take 4 sampleDom)] else []) ++ pages
    ∧ length pages
      = S (length (filter (fun el => tagName el = Some (js "H2")) (drop 5 sampleDom)))
    ∧ Forall (HeadedBy (drop 4 sampleDom)) pages.
Proof.
  assert (Forall WellFormedDom sampleDom) as Hwf.
  { repeat constructor; by eexists. }
  destruct (heading_split_pages sampleDom Hwf) as [_ Hsplit].
  apply Hsplit.
  - reflexivity.
  - repeat constructor; by vm_compute.
  - reflexivity.
Defined.

(** ** The two paginators *)

Lemma placeNode_agrees st el :
  WellFormedDom el →
  currentSection st = [] ∨ Solid (currentSection st) →
  currentHeight st + pageHeight (omap flattenNode [el]) ≤ MAX_PAGE_HEIGHT →
  let st' := fold_left placeNode (omap flattenNode [el]) st in
  (sections st', currentSection st')
  = PageTsx.placeChild (sections st, currentSection st) el
  ∧ (currentSection st' = [] ∨ Solid (currentSection st'))
  ∧ currentHeight st' ≤ currentHeight st + pageHeight (omap flattenNode [el]).
Proof.
  intros Hwf Hcur Hfit.
  destruct (decide (tagName el = Some (js "H2"))) as [Hh2|Hh2].
  - destruct (placeChild_h2 (sections st) (currentSection st) el Hwf Hh2)
      as (r & Hout & ->).
    assert (flattenNode el = Some (mkNode (js "H2") (ch "<" :: r) false)) as Hnode.
    { unfold flattenNode. rewrite Hh2, Hout. reflexivity. }
    cbn [omap list_omap] in *. rewrite Hnode in *.
    cbn [fold_left pageHeight] in *.
    set (node := mkNode (js "H2") (ch "<" :: r) false) in *.
    unfold placeNode. change (tag node) with (js "H2").
    change (html node) with (ch "<" :: r).
    rewrite bool_decide_eq_true_2 by done. cbn [andb].
    destruct Hcur as [Hcur|Hcur].
    + rewrite Hcur. cbn [trim truthy rev dropWhile app]. rewrite andb_false_r.
      cbn [sections currentSection currentHeight app]. rewrite Hcur.
      cbn [app]. split_and!; [done|right; apply truthy_trim_lt|lia].
    + unfold Solid in Hcur. rewrite Hcur.
      cbn [sections currentSection currentHeight].
      split_and!; [done|right; apply truthy_trim_lt|lia].
  - rewrite placeChild_other by done. unfold nodeMarkup.
    cbn [omap list_omap] in *.
    destruct (flattenNode el) as [node|] eqn:Hnode; simpl in *.
    + assert (tag node ≠ js "H2") as Htag.
      { pose proof Hnode as Hn. unfold flattenNode in Hn.
        destruct (bool_decide (tagName el = Some (js "HR"))); [done|].
        destruct (optTruthy (outerHTML el)).
        - injection Hn as <-. cbn [tag]. intros Ht.
          destruct (tagName el) as [t|]; simpl in Ht; [by subst|done].
        - destruct (optTruthy _); [|done]. by injection Hn as <-. }
      pose proof (flattenNode_solid el node Hwf Hnode) as Hs.
      unfold placeNode. rewrite bool_decide_eq_false_2 by done. simpl.
      assert ((MAX_PAGE_HEIGHT <? currentHeight st + estimateHeight node) = false)
        as -> by (apply N.ltb_ge; lia).
      simpl. split_and!; [done| |lia].
      right. unfold Solid in *. rewrite truthy_trim_app, Hs. apply orb_true_r.
    + rewrite app_nil_r. split_and!; [done|done|lia].
Qed.

Lemma fold_placeNode_agrees els st :
  Forall WellFormedDom els →
  currentSection st = [] ∨ Solid (currentSection st) →
  currentHeight st + pageHeight (flattenNodes els) ≤ MAX_PAGE_HEIGHT →
  let st' := fold_left placeNode (flattenNodes els) st in
  (sections st', currentSection st')
  = fold_left PageTsx.placeChild els (sections st, currentSection st).
Proof.
  intros Hwf. revert st.
  induction Hwf as [|el els Hel _ IH]; intros st Hcur Hfit; [done|].
  change (el :: els) with ([el] ++ els) in *.
  unfold flattenNodes in *. rewrite omap_app in *.
  assert (pageHeight (omap flattenNode [el] ++ omap flattenNode els)
          = pageHeight (omap flattenNode [el]) + pageHeight (omap flattenNode els))
    as Hsum.
  { cbn [omap list_omap]. destruct (flattenNode el); simpl; lia. }
  rewrite Hsum in Hfit.
  destruct (placeNode_agrees st el Hel Hcur) as (Hstep & Hcur' & Hh); [lia|].
  rewrite !fold_left_app. cbn -[omap placeNode PageTsx.placeChild flattenNode].
  cbn [fold_left] in *.
  rewrite <- Hstep. apply IH; [done|]. lia.
Qed.

(** X16. A document whose nodes are estimated at no more than one page
    (880) in all is paginated by the height-aware paginator exactly as by
    the heading-split one: pages break at second-level headings only. *)
Theorem short_document_same_pages (childNodes : list DomNode) :
  Forall WellFormedDom childNodes →
  pageHeight (flattenNodes childNodes) ≤ MAX_PAGE_HEIGHT →
  paginate (flattenNodes childNodes) = PageTsx.paginate childNodes.
Proof.
  intros Hwf Hfit.
  pose proof (fold_placeNode_agrees childNodes (mkPag [] [] 0) Hwf
                (or_introl eq_refl) Hfit) as Hagree.
  unfold paginate, finish, PageTsx.paginate. simpl in Hagree.
  rewrite <- Hagree. done.
Qed.

Lemma short_document_same_pages_witness :
  paginate (flattenNodes sampleDom) = PageTsx.paginate sampleDom.
Proof.
  apply short_document_same_pages.
  - repeat constructor; by eexists.
  - by vm_compute.
Defined.

(** ** The two renderer adapters; linked references *)

Lemma lastNamed_present images img :
  img ∈ images → ∃ A, lastNamed images (name img) = Some A.
Proof.
  intros Hin. unfold lastNamed.
  assert (img ∈ filter (fun i => name i = name img) images) as Hf
    by (by apply list_elem_of_filter).
  destruct (filter _ images) as [|x l] using rev_ind;
    [by apply elem_of_nil in Hf|].
  exists x. apply last_snoc.
Qed.

Lemma NoDup_name_inj (images : list ImageFile) A B :
  NoDup (name <$> images) → A ∈ images → B ∈ images → name A = name B → A = B.
Proof.
  induction images as [|x images IH]; [by intros _ ?%elem_of_nil|].
  rewrite fmap_cons. intros [Hx Hnd]%NoDup_cons HA HB Hname.
  apply elem_of_cons in HA as [->|HA], HB as [->|HB]; [done| | |by apply IH].
  - destruct Hx. rewrite Hname. by apply list_elem_of_fmap_2.
  - destruct Hx. rewrite <- Hname. by apply list_elem_of_fmap_2.
Qed.



(** X18. A reference the Auto-Linker writes resolves: rendering the url
    it gives an asset (the asset's name, when that is not empty and holds
    no slash) shows the content of the last uploaded asset of that name,
    the asset itself when names are distinct, and never the placeholder
    unless that content is empty. *)
Theorem linked_reference_resolves (screenshots : list ImageFile)
    (img : ImageFile) (alt : option jsstring) :
  img ∈ screenshots → name img ≠ [] → ch "/" ∉ name img →
  ∃ A, lastNamed screenshots (name img) = Some A
       ∧ name A = name img
       ∧ (dataUrl A ≠ [] →
          Part001.img screenshots (Some (name img)) alt
          = RenderImage (dataUrl A) (default [] alt))
       ∧ (NoDup (name <$> screenshots) → A = img).
Proof.
  intros Hin Hname Hslash.
  destruct (lastNamed_present screenshots img Hin) as [A HA].
  destruct (lastNamed_Some _ _ _ HA) as [HAin HAname].
  exists A. split_and!; [done|done| |].
  - intros Hurl. unfold Part001.img. cbv zeta.
    change (default [] (Some (name img))) with (name img).
    rewrite basename_no_slash by done.
    rewrite imageMap_lookup, HA. cbn [fmap option_fmap option_map].
    destruct (name img); [done|]. by destruct (dataUrl A).
  - intros Hnd. by eapply NoDup_name_inj.
Qed.

Lemma linked_reference_resolves_witness :
  ∃ A, lastNamed [shot "01_a.png"; shot "02_b.png"] (js "02_b.png") = Some A
       ∧ name A = js "02_b.png"
       ∧ (dataUrl A ≠ [] →
          Part001.img [shot "01_a.png"; shot "02_b.png"] (Some (js "02_b.png")) None
          = RenderImage (dataUrl A) [])
       ∧ (NoDup (name <$> [shot "01_a.png"; shot "02_b.png"]) → A = shot "02_b.png").
Proof.
  apply (linked_reference_resolves [shot "01_a.png"; shot "02_b.png"]
           (shot "02_b.png") None).
  - apply (bool_decide_unpack _). vm_compute. exact I.
  - done.
  - apply (bool_decide_unpack _). vm_compute. exact I.
Defined.
